(** * go-gin-websocket: the hub, its clients and the broadcast endpoint

    A shallow embedding of [services/websocket/ws.go] and of the handler
    [broadcastAPI] of [main.go], with the properties of the registry and
    of the fan-out loop proved over it.

    Go channels are modelled by their buffer, their capacity and their
    closed flag.  The goroutines of the program (the hub's [Run], one
    [readPump] and one [writePump] per client, the HTTP handlers) are
    interleaved by an explicit list of events; what the transport and the
    scheduler decide (a read or a write failing, the order in which a map
    is ranged over, how far a write pump gets while the hub is busy) is
    part of the event. *)

From stdpp Require Import gmap strings list fin_maps.
From Stdlib Require Import ZArith.

Local Open Scope Z_scope.

(** * The program: [services/websocket/ws.go] *)

(** ** Values *)

(** [[]byte] *)
Definition payload : Type := list Byte.byte.

(** A [*client]: the address of the struct. *)
Definition client : Type := nat.

(** ** Run-time panics of the Go runtime that the program can raise *)

Inductive panic : Type :=
| SendOnClosedChannel
| CloseOfClosedChannel
| NilDereference.

Inductive result (A : Type) : Type :=
| Ok (a : A)
| Panic (p : panic).
Arguments Ok {A} a.
Arguments Panic {A} p.

#[global] Instance result_ret : MRet result := fun A a => Ok a.

#[global] Instance result_bind : MBind result := fun A B f r =>
  match r with
  | Ok a => f a
  | Panic p => Panic p
  end.

(** ** Buffered channels of payloads *)

Module Chan.

Record t : Type := Make { cap : nat; buf : list payload; closed : bool }.

(** [make(chan []byte, n)] *)
Definition make (n : nat) : t := Make n [] false.

Definition with_buf (q : list payload) (ch : t) : t :=
  Make (cap ch) q (closed ch).

(** [select { case ch <- m: ... default: ... }].  A send on a closed
    channel panics, also inside a [select].  A receiver parked on the
    channel finds the buffer empty, so with a capacity of at least one a
    hand-off to it is an enqueue followed by its dequeue.  A channel of
    capacity 0 is one with no receiver waiting: [withDefaults] keeps the
    program from making one. *)
Inductive send_result : Type :=
| Sent (ch : t)
| SendWouldBlock
| SendPanics.

Definition send_nb (m : payload) (ch : t) : send_result :=
  if closed ch then SendPanics
  else if (length (buf ch) <? cap ch)%nat then Sent (with_buf (buf ch ++ [m]) ch)
  else SendWouldBlock.

(** [select { case m := <-ch: ... default: ... }], and the same test for
    the blocking receive [<-ch], which is ready in the first two cases. *)
Inductive recv_result : Type :=
| Received (m : payload) (ch : t)
| RecvClosed
| RecvWouldBlock.

Definition recv_nb (ch : t) : recv_result :=
  match buf ch with
  | m :: rest => Received m (with_buf rest ch)
  | [] => if closed ch then RecvClosed else RecvWouldBlock
  end.

(** [close(ch)]: closing a closed channel panics. *)
Definition close (ch : t) : option t :=
  if closed ch then None else Some (Make (cap ch) (buf ch) true).

End Chan.

(** ** Constants of [ws.go]: [time.Duration] counts nanoseconds *)

Definition Second : Z := 1000000000.
Definition writeWait : Z := 10 * Second.
Definition pongWait : Z := 60 * Second.
Definition pingPeriod : Z := (pongWait * 9) ÷ 10.

(** [time.Now().Add(pongWait)], the deadline [readPump] sets at its start
    and again on every pong. *)
Definition read_deadline (now : Z) : Z := now + pongWait.

(** [time.NewTicker(pingPeriod)] in [writePump]. *)
Definition ticker_period : Z := pingPeriod.

(** Message types of gorilla/websocket. *)
Definition TextMessage : Z := 1.
Definition BinaryMessage : Z := 2.
Definition CloseMessage : Z := 8.
Definition PingMessage : Z := 9.
Definition PongMessage : Z := 10.

(** ** Options *)

(** What [CheckOrigin] looks at in a [*http.Request]. *)
Record Request : Type := { ReqHost : string; ReqOrigin : string }.

Record Options : Type := {
  SendCap : Z;
  MaxMessageSize : Z;
  EnableCompression : bool;
  CheckOrigin : option (Request → bool)   (* [None] is the nil func *)
}.

(** The zero value [Options{}]. *)
Definition zero_Options : Options :=
  {| SendCap := 0; MaxMessageSize := 0; EnableCompression := false;
     CheckOrigin := None |}.

Definition set_SendCap (n : Z) (o : Options) : Options :=
  {| SendCap := n; MaxMessageSize := MaxMessageSize o;
     EnableCompression := EnableCompression o; CheckOrigin := CheckOrigin o |}.

Definition set_MaxMessageSize (n : Z) (o : Options) : Options :=
  {| SendCap := SendCap o; MaxMessageSize := n;
     EnableCompression := EnableCompression o; CheckOrigin := CheckOrigin o |}.

Definition set_CheckOrigin (f : Request → bool) (o : Options) : Options :=
  {| SendCap := SendCap o; MaxMessageSize := MaxMessageSize o;
     EnableCompression := EnableCompression o; CheckOrigin := Some f |}.

Definition withDefaults (o : Options) : Options :=
  let o := if SendCap o <=? 0 then set_SendCap 128 o else o in
  let o := if MaxMessageSize o <=? 0 then set_MaxMessageSize 8192 o else o in
  match CheckOrigin o with
  | None => set_CheckOrigin (fun _ => true) o
  | Some _ => o
  end.

(** ** The hub *)

(** The channels [register] and [unregister] are unbuffered: a send on
    them is one step with the receive in [Run], and they hold no state. *)
Record Hub : Type := {
  clients : gmap client bool;
  broadcast : Chan.t;
  opts : Options
}.

Definition NewHub (o : option Options) : Hub :=
  let o := match o with Some o' => o' | None => zero_Options end in
  {| clients := ∅; broadcast := Chan.make 256; opts := withDefaults o |}.

(** [h.clients[c]]: a missing key reads as [false]. *)
Definition is_client (h : Hub) (c : client) : bool := default false (clients h !! c).

(** ** Clients *)

Definition frame : Type := Z * payload.

(** The struct [client] with, for its [conn], the frames written to the
    peer so far, and with the state of its two goroutines: whether
    [readPump] and [writePump] have returned. *)
Record client_st : Type := {
  send : Chan.t;
  conn_out : list frame;
  rp_done : bool;
  wp_done : bool
}.

Definition set_send (ch : Chan.t) (cs : client_st) : client_st :=
  {| send := ch; conn_out := conn_out cs; rp_done := rp_done cs; wp_done := wp_done cs |}.

Definition set_rp_done (cs : client_st) : client_st :=
  {| send := send cs; conn_out := conn_out cs; rp_done := true; wp_done := wp_done cs |}.

Definition set_wp_done (cs : client_st) : client_st :=
  {| send := send cs; conn_out := conn_out cs; rp_done := rp_done cs; wp_done := true |}.

(** [c.conn.WriteMessage(mt, data)]; [werr] says whether the transport
    refuses the write.  Returns the client and whether [err != nil]. *)
Definition WriteMessage (mt : Z) (data : payload) (werr : bool) (cs : client_st)
  : client_st * bool :=
  if werr then (cs, true)
  else ({| send := send cs; conn_out := conn_out cs ++ [(mt, data)];
           rp_done := rp_done cs; wp_done := wp_done cs |}, false).

(** Which case the [select] of [writePump] takes, and whether the write it
    leads to fails. *)
Inductive wp_case : Type :=
| FromQueue (werr : bool)
| FromTicker (werr : bool).

(** One iteration of the loop of [writePump]. *)
Definition writePump_iter (k : wp_case) (cs : client_st) : client_st :=
  if wp_done cs then cs
  else match k with
       | FromQueue werr =>
           match Chan.recv_nb (send cs) with
           | Chan.Received message ch =>
               let '(cs', err) := WriteMessage TextMessage message werr (set_send ch cs) in
               if err then set_wp_done cs' else cs'
           | Chan.RecvClosed =>
               let '(cs', _) := WriteMessage CloseMessage [] werr cs in
               set_wp_done cs'
           | Chan.RecvWouldBlock => cs
           end
       | FromTicker werr =>
           let '(cs', err) := WriteMessage PingMessage [] werr cs in
           if err then set_wp_done cs' else cs'
       end.

(** Several iterations in a row. *)
Definition writePump_run (ks : list wp_case) (cs : client_st) : client_st :=
  foldl (fun cs k => writePump_iter k cs) cs ks.

(** ** The state of the program *)

(** What the hub and the goroutines around it have done to channels, in
    the order in which they did it. *)
Inductive obs : Type :=
| Submitted (m : payload)              (* a send on [h.broadcast] completed *)
| Dispatched (m : payload)             (* [Run] received [m] from [h.broadcast] *)
| Enqueued (c : client) (m : payload)  (* [c.send <- m] completed *)
| Discarded (c : client) (m : payload) (* [<-c.send] in [Run] took [m] *)
| Closed (c : client).                 (* [close(c.send)] completed *)

Record state : Type := {
  hub : Hub;
  heap : gmap client client_st;
  log : list obs
}.

Definition set_clients (m : gmap client bool) (h : Hub) : Hub :=
  {| clients := m; broadcast := broadcast h; opts := opts h |}.

Definition set_broadcast (ch : Chan.t) (h : Hub) : Hub :=
  {| clients := clients h; broadcast := ch; opts := opts h |}.

(** ** [Hub.Run] *)

(** How far the write pump of a client gets while [Run] is between two of
    its three channel operations on that client's queue. *)
Definition gaps : Type := list wp_case * list wp_case.

(** [select { case <-c.send: default: }]: one payload off the front of
    the queue if there is one; what was received is dropped. *)
Definition take_oldest (c : client) (cs : client_st) : client_st * list obs :=
  match Chan.recv_nb (send cs) with
  | Chan.Received m ch => (set_send ch cs, [Discarded c m])
  | Chan.RecvClosed | Chan.RecvWouldBlock => (cs, [])
  end.

(** The body of [for c := range h.clients] for one client: the client
    afterwards, whether it stays in [h.clients], and what was done. *)
Definition offer (c : client) (msg : payload) (g : gaps) (cs : client_st)
  : result (client_st * bool * list obs) :=
  match Chan.send_nb msg (send cs) with
  | Chan.Sent ch => Ok (set_send ch cs, true, [Enqueued c msg])
  | Chan.SendPanics => Panic SendOnClosedChannel
  | Chan.SendWouldBlock =>
      let t := take_oldest c (writePump_run g.1 cs) in
      let cs3 := writePump_run g.2 t.1 in
      match Chan.send_nb msg (send cs3) with
      | Chan.Sent ch => Ok (set_send ch cs3, true, t.2 ++ [Enqueued c msg])
      | Chan.SendPanics => Panic SendOnClosedChannel
      | Chan.SendWouldBlock =>
          match Chan.close (send cs3) with
          | Some ch => Ok (set_send ch cs3, false, t.2 ++ [Closed c])
          | None => Panic CloseOfClosedChannel
          end
      end
  end.

Definition deliver (msg : payload) (g : client → gaps) (c : client) (st : state)
  : result state :=
  match heap st !! c with
  | None => Panic NilDereference
  | Some cs =>
      r ← offer c msg (g c) cs;
      let '(cs', keep, seen) := r in
      Ok {| hub := if keep : bool then hub st
                   else set_clients (delete c (clients (hub st))) (hub st);
            heap := <[c := cs']> (heap st);
            log := log st ++ seen |}
  end.

(** [range] over a map visits every key once, in an order the runtime
    picks.  [pref] proposes an order; keys it repeats or that are not in
    the map are passed over, and the keys it leaves out come last, so every
    [pref] stands for one enumeration of the keys and every enumeration is
    the one of some [pref]. *)
Definition range_keys (m : gmap client bool) (pref : list client) : list client :=
  let front := remove_dups (filter (fun c => is_Some (m !! c)) pref) in
  front ++ list_difference (map_to_list m).*1 front.

Fixpoint fanout (msg : payload) (g : client → gaps) (keys : list client) (st : state)
  : result state :=
  match keys with
  | [] => Ok st
  | c :: keys' => st' ← deliver msg g c st; fanout msg g keys' st'
  end.

(** What [Run] receives in its [select]: a client from [h.register] or
    from [h.unregister], or a payload from [h.broadcast], with the order
    and the interleaving of the fan-out that follows. *)
Inductive hub_event : Type :=
| OnRegister (c : client)
| OnUnregister (c : client)
| OnBroadcast (msg : payload) (pref : list client) (g : client → gaps).

(** One iteration of the loop of [Run]. *)
Definition Run_step (ev : hub_event) (st : state) : result state :=
  match ev with
  | OnRegister c =>
      Ok {| hub := set_clients (<[c := true]> (clients (hub st))) (hub st);
            heap := heap st; log := log st |}
  | OnUnregister c =>
      if is_client (hub st) c then
        match heap st !! c with
        | None => Panic NilDereference
        | Some cs =>
            match Chan.close (send cs) with
            | None => Panic CloseOfClosedChannel
            | Some ch =>
                Ok {| hub := set_clients (delete c (clients (hub st))) (hub st);
                      heap := <[c := set_send ch cs]> (heap st);
                      log := log st ++ [Closed c] |}
            end
        end
      else Ok st
  | OnBroadcast msg pref g =>
      fanout msg g (range_keys (clients (hub st)) pref)
        {| hub := hub st; heap := heap st; log := log st ++ [Dispatched msg] |}
  end.

Fixpoint Run (evs : list hub_event) (st : state) : result state :=
  match evs with
  | [] => Ok st
  | ev :: evs' => st' ← Run_step ev st; Run evs' st'
  end.

(** ** The goroutines around the hub *)

(** What [c.conn.ReadMessage()] returns: a message with its type, or an
    error (a closed or broken transport, a missed deadline, a message over
    the read limit). *)
Inductive read_result : Type :=
| ReadOk (mt : Z) (message : payload)
| ReadErr.

(** A blocking send [h.broadcast <- b]: [None] while the channel is full
    and the sender waits. *)
Definition submit (b : payload) (st : state) : option (result state) :=
  match Chan.send_nb b (broadcast (hub st)) with
  | Chan.Sent ch =>
      Some (Ok {| hub := set_broadcast ch (hub st); heap := heap st;
                  log := log st ++ [Submitted b] |})
  | Chan.SendWouldBlock => None
  | Chan.SendPanics => Some (Panic SendOnClosedChannel)
  end.

(** [Hub.Broadcast] *)
Definition Broadcast (b : payload) (st : state) : option (result state) := submit b st.

Inductive event : Type :=
| EvServeWs                                     (* a handshake succeeds in [ServeWs] *)
| EvRead (c : client) (r : read_result)         (* an iteration of [c.readPump] *)
| EvPump (c : client) (k : wp_case)             (* an iteration of [c.writePump] *)
| EvBroadcast (b : payload)                     (* a call of [h.Broadcast(b)] *)
| EvDispatch (pref : list client) (g : client → gaps).
                                                (* [Run] takes its [h.broadcast] case *)

(** [ServeWs] after the upgrade: a new client with its own queue, handed
    to [Run] over [h.register]; both pumps start. *)
Definition ServeWs (st : state) : result state :=
  let cl := fresh (dom (heap st)) in
  let cs := {| send := Chan.make (Z.to_nat (SendCap (opts (hub st))));
               conn_out := []; rp_done := false; wp_done := false |} in
  Run_step (OnRegister cl)
    {| hub := hub st; heap := <[cl := cs]> (heap st); log := log st |}.

(** An iteration of [readPump]; on an error the deferred function hands
    the client to [Run] over [h.unregister] and the goroutine ends. *)
Definition readPump_iter (c : client) (r : read_result) (st : state) : result state :=
  match heap st !! c with
  | None => Ok st
  | Some cs =>
      if rp_done cs then Ok st
      else match r with
           | ReadOk _ message =>
               match submit message st with
               | Some r => r
               | None => Ok st
               end
           | ReadErr =>
               st' ← Run_step (OnUnregister c) st;
               Ok {| hub := hub st'; heap := alter set_rp_done c (heap st');
                     log := log st' |}
           end
  end.

(** A step of the program.  An event whose goroutine cannot move (a sender
    waiting on a full channel, a receiver on an empty one, a pump that has
    returned) leaves the state as it is. *)
Definition step (ev : event) (st : state) : result state :=
  match ev with
  | EvServeWs => ServeWs st
  | EvRead c r => readPump_iter c r st
  | EvPump c k =>
      Ok {| hub := hub st; heap := alter (writePump_iter k) c (heap st); log := log st |}
  | EvBroadcast b =>
      match Broadcast b st with
      | Some r => r
      | None => Ok st
      end
  | EvDispatch pref g =>
      match Chan.recv_nb (broadcast (hub st)) with
      | Chan.Received msg ch =>
          Run_step (OnBroadcast msg pref g)
            {| hub := set_broadcast ch (hub st); heap := heap st; log := log st |}
      | Chan.RecvClosed | Chan.RecvWouldBlock => Ok st
      end
  end.

Fixpoint exec (evs : list event) (st : state) : result state :=
  match evs with
  | [] => Ok st
  | ev :: evs' => st' ← step ev st; exec evs' st'
  end.

(** The program after [hub := NewHub(o); go hub.Run()]. *)
Definition boot (o : option Options) : state :=
  {| hub := NewHub o; heap := ∅; log := [] |}.

(** ** Reading the log and the wire *)

Definition submitted (l : list obs) : list payload :=
  omap (fun o => match o with Submitted m => Some m | _ => None end) l.

Definition dispatched (l : list obs) : list payload :=
  omap (fun o => match o with Dispatched m => Some m | _ => None end) l.

(** The payloads enqueued on the queue of [c], oldest first. *)
Definition enqueued (c : client) (l : list obs) : list payload :=
  omap (fun o => match o with
                 | Enqueued c' m => if decide (c' = c) then Some m else None
                 | _ => None
                 end) l.

(** How many times the queue of [c] was closed. *)
Definition closes (c : client) (l : list obs) : nat :=
  length (omap (fun o => match o with
                         | Closed c' => if decide (c' = c) then Some c' else None
                         | _ => None
                         end) l).

Arguments enqueued : simpl never.
Arguments closes : simpl never.
Arguments dispatched : simpl never.
Arguments submitted : simpl never.

(** The payloads of the text frames written to the peer, oldest first. *)
Definition texts (fs : list frame) : list payload :=
  omap (fun f : frame => if f.1 =? TextMessage then Some f.2 else None) fs.

(** What the peer of a client has received or is still to receive: the
    text frames on the wire followed by the queue. *)
Definition pending (cs : client_st) : list payload :=
  texts (conn_out cs) ++ Chan.buf (send cs).

(** [h.clients[c]] is set. *)
Definition live (st : state) (c : client) : Prop := is_client (hub st) c = true.

#[global] Instance live_dec st c : Decision (live st c).
Proof. unfold live. apply _. Defined.

(** The last [n] elements of a list. *)
Definition keep_last {A : Type} (n : nat) (l : list A) : list A :=
  drop (length l - n) l.

(** * The program: the broadcast endpoint of [main.go] *)

(** A decoded JSON text.  Members of an object are kept in the order of
    the text, with their repetitions. *)
#[local] Unset Elimination Schemes.
Inductive json : Type :=
| JNull
| JBool (b : bool)
| JNumber (literal : string)
| JString (s : string)
| JArray (items : list json)
| JObject (members : list (string * json)).
#[local] Set Elimination Schemes.

(** The body of a request: bytes that are not a JSON text, or a JSON text. *)
Inductive body : Type :=
| NotJSON
| Body (j : json).

Record broadcastReq : Type := { Message : string }.

(** [encoding/json] finds the field of a key by its name, exactly or
    folded: ASCII letters to upper case, and the two other characters
    whose folding is an ASCII letter, the long s (bytes C5 BF) and the
    Kelvin sign (bytes E2 84 AA). *)
Definition is_byte (a : Ascii.ascii) (n : N) : bool := N.eqb (Ascii.N_of_ascii a) n.

Definition upper (a : Ascii.ascii) : Ascii.ascii :=
  let n := Ascii.N_of_ascii a in
  if (N.leb 97 n && N.leb n 122)%bool then Ascii.ascii_of_N (n - 32) else a.

Fixpoint foldName (s : string) : string :=
  match s with
  | EmptyString => EmptyString
  | String a rest =>
      match rest with
      | EmptyString => String (upper a) EmptyString
      | String b rest' =>
          if (is_byte a 197 && is_byte b 191)%bool then String (Ascii.ascii_of_N 83) (foldName rest')
          else
            match rest' with
            | String c rest'' =>
                if (is_byte a 226 && is_byte b 132 && is_byte c 170)%bool
                then String (Ascii.ascii_of_N 75) (foldName rest'')
                else String (upper a) (foldName rest)
            | EmptyString => String (upper a) (foldName rest)
            end
      end
  end.

(** Whether a key of the body is for the field tagged [json:"message"]. *)
Definition names_message (key : string) : bool :=
  String.eqb (foldName key) "MESSAGE".

(** [json.Unmarshal] of one member into a [broadcastReq]: the request so
    far and whether a type error was met.  A string sets the field, [null]
    leaves it, any other value is a type error; decoding goes on. *)
Definition decode_member (d : broadcastReq * bool) (kv : string * json)
  : broadcastReq * bool :=
  if names_message kv.1 then
    match kv.2 with
    | JString s => ({| Message := s |}, d.2)
    | JNull => d
    | _ => (d.1, true)
    end
  else d.

Definition Unmarshal (j : json) (r : broadcastReq) : broadcastReq * bool :=
  match j with
  | JObject members => foldl decode_member (r, false) members
  | JNull => (r, false)
  | _ => (r, true)
  end.

(** [c.ShouldBindJSON(&req)] of gin: decode, then validate the tag
    [binding:"required"], which a string fails when it is empty.  [None]
    stands for [err != nil]. *)
Definition ShouldBindJSON (b : body) : option broadcastReq :=
  match b with
  | NotJSON => None
  | Body j =>
      let '(req, err) := Unmarshal j {| Message := "" |} in
      if err then None
      else if String.eqb (Message req) "" then None
      else Some req
  end.

(** What [c.JSON(code, obj)] answers, [obj] being a [gin.H]. *)
Record response : Type := { status : Z; answer : gmap string json }.

Definition StatusOK : Z := 200.
Definition StatusBadRequest : Z := 400.

(** The [gin.H] that [broadcastAPI] serializes. *)
Definition envelope (message time : string) : gmap string json :=
  <["type" := JString "server_broadcast"]>
    (<["message" := JString message]>
       (<["time" := JString time]> ∅)).

Section BroadcastAPI.

(** [json.Marshal] on a [gin.H], and [time.Time.Format(time.RFC3339)];
    a time is its Unix nanoseconds. *)
Variable Marshal : gmap string json → payload.
Variable FormatRFC3339 : Z → string.

(** The handler: its answer, and the payloads it passes to [h.Broadcast]. *)
Definition broadcastAPI (now : Z) (b : body) : response * list payload :=
  match ShouldBindJSON b with
  | None =>
      ({| status := StatusBadRequest;
          answer := <["error" := JString "message is required"]> ∅ |}, [])
  | Some req =>
      let payload := Marshal (envelope (Message req) (FormatRFC3339 now)) in
      ({| status := StatusOK; answer := <["ok" := JBool true]> ∅ |}, [payload])
  end.

End BroadcastAPI.

(** No member of the object is for the field [message]. *)
Definition lacks_message (members : list (string * json)) : Prop :=
  Forall (fun kv => names_message kv.1 = false) members.

(** * Vocabulary of the proofs *)

(** ** The write pump *)

(** The frames the program writes: text frames, and the empty close and
    ping frames. *)
Definition control_or_text (f : frame) : Prop :=
  f.1 = TextMessage ∨ f = (CloseMessage, []) ∨ f = (PingMessage, []).

Definition wire_ok (fs : list frame) : Prop := Forall control_or_text fs.

(** What a write pump can do to its client: it takes payloads from the
    front of the queue and neither closes it nor resizes it. *)
Record drained (cs cs' : client_st) : Prop := {
  drained_cap : Chan.cap (send cs') = Chan.cap (send cs);
  drained_closed : Chan.closed (send cs') = Chan.closed (send cs);
  drained_buf : Chan.buf (send cs') `suffix_of` Chan.buf (send cs);
  drained_pending : pending cs' `sublist_of` pending cs;
  drained_out : conn_out cs `prefix_of` conn_out cs';
  drained_wire : wire_ok (conn_out cs) → wire_ok (conn_out cs')
}.

(** What [offer] leaves behind, for a queue that was open. *)
Record offered (c : client) (msg : payload) (cs cs' : client_st)
    (keep : bool) (seen : list obs) : Prop := {
  off_cap : Chan.cap (send cs') = Chan.cap (send cs);
  off_closed : Chan.closed (send cs') = negb keep;
  off_bound : (length (Chan.buf (send cs)) ≤ Chan.cap (send cs))%nat →
              (length (Chan.buf (send cs')) ≤ Chan.cap (send cs'))%nat;
  off_pending : pending cs' `sublist_of` pending cs ++ (if keep then [msg] else []);
  off_out : conn_out cs `prefix_of` conn_out cs';
  off_wire : wire_ok (conn_out cs) → wire_ok (conn_out cs');
  off_last : keep = true → last (Chan.buf (send cs')) = Some msg;
  off_keep : (length (Chan.buf (send cs)) ≤ Chan.cap (send cs))%nat →
             (1 ≤ Chan.cap (send cs))%nat → keep = true;
  off_enq : ∀ c', enqueued c' seen = if keep && bool_decide (c' = c) then [msg] else [];
  off_closes : ∀ c', closes c' seen = if negb keep && bool_decide (c' = c) then 1%nat else 0%nat;
  off_disp : dispatched seen = [];
  off_sub : submitted seen = []
}.

(** ** The invariant of the registry *)

Definition closed_count (st : state) (c : client) : nat :=
  match heap st !! c with
  | Some cs => if Chan.closed (send cs) then 1%nat else 0%nat
  | None => 0%nat
  end.

(** Every key of [h.clients] is set to [true] and stands for a client
    whose queue is open; queues hold no more than their capacity; and the
    queue of a client was closed once if it is closed and never if not. *)
Record coherent (st : state) : Prop := {
  coh_true : ∀ c b, clients (hub st) !! c = Some b → b = true;
  coh_live : ∀ c, live st c →
             ∃ cs, heap st !! c = Some cs ∧ Chan.closed (send cs) = false;
  coh_bound : ∀ c cs, heap st !! c = Some cs →
              (length (Chan.buf (send cs)) ≤ Chan.cap (send cs))%nat;
  coh_closes : ∀ c, closes c (log st) = closed_count st c
}.

(** The state after the body of the loop has run for [c]. *)
Definition delivered (c : client) (cs' : client_st) (keep : bool) (seen : list obs)
    (st : state) : state :=
  {| hub := if keep then hub st else set_clients (delete c (clients (hub st))) (hub st);
     heap := <[c := cs']> (heap st);
     log := log st ++ seen |}.

(** What a fan-out does, client by client. *)
Record fanned (msg : payload) (g : client → gaps) (keys : list client)
    (st st' : state) : Prop := {
  fan_coherent : coherent st';
  fan_broadcast : broadcast (hub st') = broadcast (hub st);
  fan_opts : opts (hub st') = opts (hub st);
  fan_dom : dom (heap st') = dom (heap st);
  fan_disp : dispatched (log st') = dispatched (log st);
  fan_sub : submitted (log st') = submitted (log st);
  fan_other : ∀ c, c ∉ keys →
    clients (hub st') !! c = clients (hub st) !! c ∧
    heap st' !! c = heap st !! c ∧
    enqueued c (log st') = enqueued c (log st) ∧
    closes c (log st') = closes c (log st);
  fan_key : ∀ c cs, c ∈ keys → heap st !! c = Some cs →
    ∃ cs' keep seen, offer c msg (g c) cs = Ok (cs', keep, seen) ∧
      offered c msg cs cs' keep seen ∧
      heap st' !! c = Some cs' ∧
      is_client (hub st') c = keep ∧
      enqueued c (log st') = enqueued c (log st) ++ (if keep then [msg] else []) ∧
      closes c (log st') = (closes c (log st) + (if keep then 0 else 1))%nat
}.

(** The state in which the fan-out of [msg] starts. *)
Definition dispatching (msg : payload) (st : state) : state :=
  {| hub := hub st; heap := heap st; log := log st ++ [Dispatched msg] |}.

(** ** The invariant of the program *)

(** On top of [coherent]: queues have the configured capacity, which is
    positive; [h.broadcast] is open and holds the submitted payloads not
    yet dispatched, in order; a client in [h.clients] had every payload
    dispatched since it registered enqueued, in order; and what a peer has
    received or is to receive follows the order of the enqueues. *)
Record sound (st : state) : Prop := {
  snd_coherent : coherent st;
  snd_cap_pos : 0 < SendCap (opts (hub st));
  snd_caps : ∀ c cs, heap st !! c = Some cs →
             Chan.cap (send cs) = Z.to_nat (SendCap (opts (hub st)));
  snd_open : Chan.closed (broadcast (hub st)) = false;
  snd_fifo : submitted (log st) = dispatched (log st) ++ Chan.buf (broadcast (hub st));
  snd_live : ∀ c, live st c → enqueued c (log st) `suffix_of` dispatched (log st);
  snd_order : ∀ c, enqueued c (log st) `sublist_of` dispatched (log st);
  snd_pending : ∀ c cs, heap st !! c = Some cs →
                pending cs `sublist_of` enqueued c (log st);
  snd_fresh : ∀ c, heap st !! c = None → enqueued c (log st) = [];
  snd_wire : ∀ c cs, heap st !! c = Some cs → wire_ok (conn_out cs);
  snd_bcap : Chan.cap (broadcast (hub st)) = 256%nat
}.

(** What the [h.broadcast] case of [Run] does, seen from the state it
    starts in. *)
Record broadcasted (msg : payload) (g : client → gaps) (st st' : state) : Prop := {
  bc_coherent : coherent st';
  bc_broadcast : broadcast (hub st') = broadcast (hub st);
  bc_opts : opts (hub st') = opts (hub st);
  bc_dom : dom (heap st') = dom (heap st);
  bc_disp : dispatched (log st') = dispatched (log st) ++ [msg];
  bc_sub : submitted (log st') = submitted (log st);
  bc_idle : ∀ c, ¬ live st c →
    clients (hub st') !! c = clients (hub st) !! c ∧
    heap st' !! c = heap st !! c ∧
    enqueued c (log st') = enqueued c (log st) ∧
    closes c (log st') = closes c (log st);
  bc_live : ∀ c, live st c →
    ∃ cs cs' keep seen, heap st !! c = Some cs ∧ Chan.closed (send cs) = false ∧
      offer c msg (g c) cs = Ok (cs', keep, seen) ∧
      offered c msg cs cs' keep seen ∧
      heap st' !! c = Some cs' ∧
      is_client (hub st') c = keep ∧
      enqueued c (log st') = enqueued c (log st) ++ (if keep then [msg] else []) ∧
      closes c (log st') = (closes c (log st) + (if keep then 0 else 1))%nat
}.

(** ** The backpressure policy *)

(** The three steps of the specification, on a queue [q] of capacity [N]:
    enqueue if there is room; if not, take the oldest payload away, if
    there is one, and try once more; if that fails, disconnect ([None]).
    [k1] and [k2] count the payloads the write loop of the connection takes
    meanwhile, before and after the oldest is taken away. *)
Definition backpressure_policy (N : nat) (msg : payload) (q : list payload)
    (k1 k2 : nat) : option (list payload) :=
  if (length q <? N)%nat then Some (q ++ [msg])
  else
    let q' := drop k2 (tail (drop k1 q)) in
    if (length q' <? N)%nat then Some (q' ++ [msg]) else None.

(** How many payloads the pump takes in [ks]. *)
Definition taken (ks : list wp_case) (cs : client_st) : nat :=
  length (Chan.buf (send cs)) - length (Chan.buf (send (writePump_run ks cs))).

(** The [h.broadcast] cases of [Run] for a list of payloads, each with the
    order and the interleaving of its fan-out. *)
Definition broadcasts (bs : list (payload * list client * (client → gaps)))
  : list hub_event :=
  map (fun b => OnBroadcast b.1.1 b.1.2 b.2) bs.

(** The write pump of [c] does not move during the fan-outs of [bs]. *)
Definition stands_still (c : client) (bs : list (payload * list client * (client → gaps)))
  : Prop :=
  Forall (fun b => b.2 c = ([], [])) bs.

(** ** Registering and unregistering *)

Definition registrations (evs : list hub_event) : list client :=
  omap (fun ev => match ev with OnRegister c => Some c | _ => None end) evs.

(** A client as [ServeWs] has built it, before it is handed to [Run]. *)
Definition built (st : state) (c : client) : Prop :=
  ¬ live st c ∧ ∃ cs, heap st !! c = Some cs ∧ Chan.closed (send cs) = false.

(** ** Order *)

(** One step, seen from a client that exists: it stays; it does not come
    back into [h.clients] once out; and if it is in [h.clients] after the
    step, every payload dispatched in the step was enqueued on it. *)
Record stepped (c : client) (st st' : state) (D : list payload) : Prop := {
  stp_heap : is_Some (heap st' !! c);
  stp_live : live st' c → live st c;
  stp_disp : dispatched (log st') = dispatched (log st) ++ D;
  stp_enq : live st' c → enqueued c (log st') = enqueued c (log st) ++ D
}.

(** ** Runs of the program on small inputs *)

(** The state a run ends in. *)
Definition run_from (evs : list event) (st : state) : state :=
  match exec evs st with
  | Ok st' => st'
  | Panic _ => st
  end.

(** Queues of one payload. *)
Definition one_slot : Options :=
  {| SendCap := 1; MaxMessageSize := 0; EnableCompression := false; CheckOrigin := None |}.

(** The options of [main]. *)
Definition main_options : Options :=
  {| SendCap := 256; MaxMessageSize := 8192; EnableCompression := true;
     CheckOrigin := None |}.

(** No write pump moves during a fan-out. *)
Definition still : client → gaps := fun _ => ([], []).

Definition msg_a : payload := [Byte.x61].
Definition msg_b : payload := [Byte.x62].
Definition msg_c : payload := [Byte.x63].

(** One client, with a queue of one payload. *)
Definition one_client : state := run_from [EvServeWs] (boot (Some one_slot)).

(** The same, with its queue full. *)
Definition one_client_full : state :=
  run_from [EvBroadcast msg_a; EvDispatch [] still] one_client.

(** Two clients under the options of [main]. *)
Definition two_clients : state := run_from [EvServeWs; EvServeWs] (boot (Some main_options)).

(** Three broadcasts to one client that has room for one. *)
Definition overflow : list event :=
  [EvServeWs;
   EvBroadcast msg_a; EvDispatch [] still;
   EvBroadcast msg_b; EvDispatch [] still;
   EvBroadcast msg_c; EvDispatch [] still].

(** A client that [ServeWs] has built and not yet handed to [Run]. *)
Definition newcomer : client_st :=
  {| send := Chan.make 128; conn_out := []; rp_done := false; wp_done := false |}.

Definition before_register : state :=
  {| hub := NewHub None; heap := {[ 0%nat := newcomer ]}; log := [] |}.

(** A client with an unbuffered queue and nobody receiving, and a state
    in which it is registered. *)
Definition unbuffered : client_st :=
  {| send := Chan.make 0; conn_out := []; rp_done := false; wp_done := false |}.

Definition unbuffered_registered : state :=
  {| hub := set_clients {[ 0%nat := true ]} (NewHub None);
     heap := {[ 0%nat := unbuffered ]}; log := [] |}.

(** The write pump takes one payload, and writes it, right after the first
    send of [Run] has failed. *)
Definition pump_first : client → gaps := fun _ => ([FromQueue false], []).

(** * Vocabulary of the further properties *)

(** No write of the pump fails in [ks]. *)
Definition writes_ok (ks : list wp_case) : Prop :=
  Forall (fun k => match k with FromQueue werr | FromTicker werr => werr = false end) ks.

(** The payloads of [q], each as one text frame. *)
Definition text_frames (q : list payload) : list frame :=
  (fun m => (TextMessage, m)) <$> q.

(** The read pump of a client has returned exactly when its queue is
    closed, and the client is in [h.clients] exactly when it is open. *)
Record tracked (st : state) : Prop := {
  trk_rp : ∀ c cs, heap st !! c = Some cs → rp_done cs = Chan.closed (send cs);
  trk_live : ∀ c cs, heap st !! c = Some cs →
             (live st c ↔ Chan.closed (send cs) = false)
}.


(** The handler against the hub: after a body that binds, the call
    [h.Broadcast(payload)] and then the answer; [None] while that call
    waits for room in [h.broadcast]. *)
Definition broadcastAPI_call (Marshal : gmap string json → payload)
    (FormatRFC3339 : Z → string) (now : Z) (b : body) (st : state)
  : option (response * result state) :=
  let '(resp, calls) := broadcastAPI Marshal FormatRFC3339 now b in
  match calls with
  | [] => Some (resp, Ok st)
  | p :: _ =>
      match Broadcast p st with
      | Some r => Some (resp, r)
      | None => None
      end
  end.


(** Options with sizes below zero. *)
Definition negative_sizes : Options :=
  {| SendCap := -5; MaxMessageSize := -1; EnableCompression := true; CheckOrigin := None |}.

(** Options with every field set; the origin check refuses every request. *)
Definition all_set : Options :=
  {| SendCap := 16; MaxMessageSize := 512; EnableCompression := false;
     CheckOrigin := Some (fun _ => false) |}.

(** What a run adds to the log, seen from a client [c]: the payloads [D]
    dispatched and, among them, the payloads [E] enqueued on [c]. *)
Record grown (c : client) (st st' : state) (D E : list payload) : Prop := {
  grw_disp : dispatched (log st') = dispatched (log st) ++ D;
  grw_enq : enqueued c (log st') = enqueued c (log st) ++ E;
  grw_sub : E `sublist_of` D
}.

(** What the program can do to a client that is out of [h.clients]: its
    write pump may go on, and that is all. *)
Record left_alone (c : client) (st st' : state) : Prop := {
  la_out : ¬ live st' c;
  la_drained : ∃ cs cs', heap st !! c = Some cs ∧ heap st' !! c = Some cs' ∧ drained cs cs';
  la_enq : enqueued c (log st') = enqueued c (log st);
  la_closes : closes c (log st') = closes c (log st)
}.

(** [Run] taking one payload after the other from [h.broadcast], each
    with the order of its [range] and what the write pumps do meanwhile. *)
Definition dispatches (pgs : list (list client * (client → gaps))) : list event :=
  (fun pg => EvDispatch pg.1 pg.2) <$> pgs.






(** The one client of [one_client_full] after its read pump met an error. *)
Definition gone : state := run_from [EvRead 0%nat ReadErr] one_client_full.

(** * Proofs *)

(** ** The log *)

Lemma submitted_app l1 l2 : submitted (l1 ++ l2) = submitted l1 ++ submitted l2.
Proof. apply omap_app. Qed.

Lemma dispatched_app l1 l2 : dispatched (l1 ++ l2) = dispatched l1 ++ dispatched l2.
Proof. apply omap_app. Qed.

Lemma enqueued_app c l1 l2 : enqueued c (l1 ++ l2) = enqueued c l1 ++ enqueued c l2.
Proof. apply omap_app. Qed.

Lemma closes_app c l1 l2 : closes c (l1 ++ l2) = (closes c l1 + closes c l2)%nat.
Proof. unfold closes. by rewrite omap_app, length_app. Qed.

Lemma texts_app fs1 fs2 : texts (fs1 ++ fs2) = texts fs1 ++ texts fs2.
Proof. apply omap_app. Qed.

(** ** The write pump *)

Lemma wire_ok_snoc fs f : control_or_text f → wire_ok fs → wire_ok (fs ++ [f]).
Proof. intros Hf Hfs. apply Forall_app. split; [done|]. by apply Forall_singleton. Qed.

Lemma drained_refl cs : drained cs cs.
Proof. by split. Qed.

Lemma drained_trans cs1 cs2 cs3 : drained cs1 cs2 → drained cs2 cs3 → drained cs1 cs3.
Proof.
  intros [] []. split; try congruence; try (by etrans). auto.
Qed.

Lemma writePump_iter_drained k cs : drained cs (writePump_iter k cs).
Proof.
  unfold writePump_iter.
  destruct (wp_done cs); [apply drained_refl|].
  destruct k as [werr|werr].
  - unfold Chan.recv_nb.
    destruct cs as [[n q cl] out rp wp]; simpl.
    destruct q as [|m q]; simpl.
    + destruct cl; [|apply drained_refl].
      destruct werr; split; simpl; try done;
        try (by apply prefix_app_r);
        try (apply wire_ok_snoc; unfold control_or_text; by auto);
        unfold pending; simpl; rewrite ?texts_app; simpl;
        rewrite ?app_nil_r; done.
    + destruct werr; split; simpl; try done;
        try (by apply suffix_cons_r); try (by apply prefix_app_r);
        try (apply wire_ok_snoc; unfold control_or_text; by auto);
        unfold pending; simpl; rewrite ?texts_app; simpl.
      * apply sublist_app; [done|]. by apply sublist_cons.
      * by rewrite <- app_assoc.
  - destruct werr; split; simpl; try done;
      try (by apply prefix_app_r);
      try (apply wire_ok_snoc; unfold control_or_text; by auto);
      unfold pending; simpl; rewrite ?texts_app; simpl;
      rewrite ?app_nil_r; done.
Qed.

Lemma writePump_run_drained ks cs : drained cs (writePump_run ks cs).
Proof.
  unfold writePump_run. revert cs.
  induction ks as [|k ks IH]; intros cs; simpl; [apply drained_refl|].
  eapply drained_trans; [apply writePump_iter_drained | apply IH].
Qed.

(** ** One client in the fan-out *)

Lemma send_nb_open m ch :
  Chan.closed ch = false →
  ((length (Chan.buf ch) < Chan.cap ch)%nat ∧
     Chan.send_nb m ch = Chan.Sent (Chan.with_buf (Chan.buf ch ++ [m]) ch)) ∨
  ((Chan.cap ch ≤ length (Chan.buf ch))%nat ∧ Chan.send_nb m ch = Chan.SendWouldBlock).
Proof.
  intros Hopen. unfold Chan.send_nb. rewrite Hopen.
  destruct (Nat.ltb_spec (length (Chan.buf ch)) (Chan.cap ch)); [left|right]; done.
Qed.

Lemma take_oldest_drained c cs : drained cs (take_oldest c cs).1.
Proof.
  unfold take_oldest, Chan.recv_nb.
  destruct cs as [[n q cl] out rp wp]; simpl.
  destruct q as [|m q]; simpl; [destruct cl; apply drained_refl|].
  split; simpl; try done; [by apply suffix_cons_r|].
  unfold pending; simpl. apply sublist_app; [done|]. by apply sublist_cons.
Qed.

Lemma take_oldest_length c cs :
  length (Chan.buf (send (take_oldest c cs).1)) = pred (length (Chan.buf (send cs))).
Proof.
  unfold take_oldest, Chan.recv_nb.
  destruct cs as [[n q cl] out rp wp]; simpl.
  destruct q as [|m q]; simpl; [by destruct cl|done].
Qed.

Lemma take_oldest_seen c cs c' :
  enqueued c' (take_oldest c cs).2 = [] ∧ closes c' (take_oldest c cs).2 = 0%nat ∧
  dispatched (take_oldest c cs).2 = [] ∧ submitted (take_oldest c cs).2 = [].
Proof.
  unfold take_oldest. by destruct (Chan.recv_nb (send cs)).
Qed.

Lemma offer_unfold c msg g cs :
  offer c msg g cs =
  match Chan.send_nb msg (send cs) with
  | Chan.Sent ch => Ok (set_send ch cs, true, [Enqueued c msg])
  | Chan.SendPanics => Panic SendOnClosedChannel
  | Chan.SendWouldBlock =>
      let t := take_oldest c (writePump_run g.1 cs) in
      let cs3 := writePump_run g.2 t.1 in
      match Chan.send_nb msg (send cs3) with
      | Chan.Sent ch => Ok (set_send ch cs3, true, t.2 ++ [Enqueued c msg])
      | Chan.SendPanics => Panic SendOnClosedChannel
      | Chan.SendWouldBlock =>
          match Chan.close (send cs3) with
          | Some ch => Ok (set_send ch cs3, false, t.2 ++ [Closed c])
          | None => Panic CloseOfClosedChannel
          end
      end
  end.
Proof. reflexivity. Qed.

Lemma enqueued_one c c' m :
  enqueued c' [Enqueued c m] = if bool_decide (c' = c) then [m] else [].
Proof.
  unfold enqueued; simpl. destruct (decide (c = c')) as [->|Hne].
  - by rewrite bool_decide_eq_true_2.
  - rewrite bool_decide_eq_false_2; [done|congruence].
Qed.

Lemma closes_one c c' :
  closes c' [Closed c] = if bool_decide (c' = c) then 1%nat else 0%nat.
Proof.
  unfold closes; simpl. destruct (decide (c = c')) as [->|Hne].
  - by rewrite bool_decide_eq_true_2.
  - rewrite bool_decide_eq_false_2; [done|congruence].
Qed.

Lemma offer_open c msg g cs :
  Chan.closed (send cs) = false →
  ∃ cs' keep seen, offer c msg g cs = Ok (cs', keep, seen) ∧ offered c msg cs cs' keep seen.
Proof.
  intros Hopen. rewrite offer_unfold.
  destruct (send_nb_open msg (send cs) Hopen) as [[Hlt ->]|[Hge ->]].
  - eexists _, true, _. split; [done|].
    split; simpl; try done.
    + rewrite length_app; simpl. lia.
    + unfold pending; simpl. by rewrite app_assoc.
    + intros _. by rewrite last_snoc.
    + intros c'. apply enqueued_one.
  - simpl.
    pose proof (writePump_run_drained g.1 cs) as D1.
    pose proof (take_oldest_drained c (writePump_run g.1 cs)) as D2.
    pose proof (take_oldest_length c (writePump_run g.1 cs)) as L2.
    pose proof (take_oldest_seen c (writePump_run g.1 cs)) as S2.
    destruct (take_oldest c (writePump_run g.1 cs)) as [cs2 seen]; simpl in *.
    pose proof (writePump_run_drained g.2 cs2) as D3.
    set (cs3 := writePump_run g.2 cs2) in *.
    assert (D : drained cs cs3) by (eapply drained_trans; [|exact D3]; by eapply drained_trans).
    assert (Hopen3 : Chan.closed (send cs3) = false) by (by rewrite (drained_closed _ _ D)).
    assert (Hlen3 : (length (Chan.buf (send cs3)) ≤ pred (length (Chan.buf (send cs))))%nat).
    { pose proof (suffix_length _ _ (drained_buf _ _ D3)).
      pose proof (suffix_length _ _ (drained_buf _ _ D1)). lia. }
    destruct (send_nb_open msg (send cs3) Hopen3) as [[Hlt ->]|[Hge3 ->]].
    + eexists _, true, _. split; [done|].
      split; simpl; try done.
      * apply (drained_cap _ _ D).
      * intros _. rewrite length_app; simpl. lia.
      * unfold pending; simpl. rewrite app_assoc.
        apply sublist_app; [|done]. apply (drained_pending _ _ D).
      * apply (drained_out _ _ D).
      * apply (drained_wire _ _ D).
      * intros _. by rewrite last_snoc.
      * intros c'. rewrite enqueued_app, (proj1 (S2 c')). apply enqueued_one.
      * intros c'. rewrite closes_app. destruct (S2 c') as (_ & -> & _). done.
      * rewrite dispatched_app. destruct (S2 c) as (_ & _ & -> & _). done.
      * rewrite submitted_app. destruct (S2 c) as (_ & _ & _ & ->). done.
    + unfold Chan.close. rewrite Hopen3.
      eexists _, false, _. split; [done|].
      split; simpl; try done.
      * apply (drained_cap _ _ D).
      * intros Hb. pose proof (drained_cap _ _ D). lia.
      * rewrite app_nil_r. apply (drained_pending _ _ D).
      * apply (drained_out _ _ D).
      * apply (drained_wire _ _ D).
      * intros Hb Hc. pose proof (drained_cap _ _ D). lia.
      * intros c'. rewrite enqueued_app, (proj1 (S2 c')). done.
      * intros c'. rewrite closes_app. destruct (S2 c') as (_ & -> & _). apply closes_one.
      * rewrite dispatched_app. destruct (S2 c) as (_ & _ & -> & _). done.
      * rewrite submitted_app. destruct (S2 c) as (_ & _ & _ & ->). done.
Qed.

(** ** Ranging over [h.clients] *)

Lemma range_keys_NoDup m pref : NoDup (range_keys m pref).
Proof.
  unfold range_keys. apply NoDup_app. split; [apply NoDup_remove_dups|]. split.
  - intros c Hc Hc'. apply list_elem_of_difference in Hc'. tauto.
  - apply NoDup_list_difference, NoDup_fst_map_to_list.
Qed.

Lemma elem_of_range_keys m pref c : c ∈ range_keys m pref ↔ is_Some (m !! c).
Proof.
  unfold range_keys. rewrite elem_of_app, elem_of_remove_dups, list_elem_of_filter,
    list_elem_of_difference, elem_of_remove_dups, list_elem_of_filter.
  assert (c ∈ (map_to_list m).*1 ↔ is_Some (m !! c)) as ->.
  { rewrite list_elem_of_fmap. split.
    - intros [[c' b] [-> H]]. apply elem_of_map_to_list in H. by exists b.
    - intros [b H]. exists (c, b). split; [done|]. by apply elem_of_map_to_list. }
  destruct (decide (c ∈ pref)); tauto.
Qed.

Lemma filter_all {A} (P : A → Prop) `{!∀ x, Decision (P x)} (l : list A) :
  (∀ x, x ∈ l → P x) → filter P l = l.
Proof.
  induction l as [|x l IH]; intros Hall; [done|].
  rewrite filter_cons_True by (apply Hall; left).
  f_equal. apply IH. intros y Hy. apply Hall. by right.
Qed.

Lemma remove_dups_NoDup `{!EqDecision A} (l : list A) : NoDup l → remove_dups l = l.
Proof.
  induction 1 as [|x l Hx Hl IH]; simpl; [done|].
  destruct (decide_rel elem_of x l); [done|]. by rewrite IH.
Qed.

Lemma list_difference_all `{!EqDecision A} (l k : list A) :
  (∀ x, x ∈ l → x ∈ k) → list_difference l k = [].
Proof.
  induction l as [|x l IH]; intros Hall; simpl; [done|].
  destruct (decide_rel elem_of x k) as [|Hx].
  - apply IH. intros y Hy. apply Hall. by right.
  - destruct Hx. apply Hall. left.
Qed.

(** Every enumeration of the keys is the one [range_keys] makes of it. *)
Lemma range_keys_id m keys :
  NoDup keys → (∀ c, c ∈ keys ↔ is_Some (m !! c)) → range_keys m keys = keys.
Proof.
  intros Hnd Hkeys. unfold range_keys.
  rewrite filter_all by (intros c Hc; by apply Hkeys).
  rewrite remove_dups_NoDup by done.
  rewrite list_difference_all; [apply app_nil_r|].
  intros c Hc. apply Hkeys.
  apply list_elem_of_fmap in Hc as [[c' b] [-> H]].
  apply elem_of_map_to_list in H. by exists b.
Qed.

(** ** The invariant of the registry *)

Lemma live_lookup st c : live st c ↔ clients (hub st) !! c = Some true.
Proof.
  unfold live, is_client. destruct (clients (hub st) !! c) as [[]|]; simpl; split; congruence.
Qed.

Lemma live_is_Some st c : coherent st → (live st c ↔ is_Some (clients (hub st) !! c)).
Proof.
  intros Hc. rewrite live_lookup. split; [by eexists|].
  intros [b Hb]. by rewrite Hb, (coh_true _ Hc _ _ Hb).
Qed.

Lemma not_live st c : ¬ live st c ↔ is_client (hub st) c = false.
Proof. unfold live. by destruct (is_client (hub st) c). Qed.

Lemma deliver_live msg g c st cs :
  heap st !! c = Some cs → Chan.closed (send cs) = false →
  ∃ cs' keep seen, offer c msg (g c) cs = Ok (cs', keep, seen) ∧
    offered c msg cs cs' keep seen ∧
    deliver msg g c st = Ok (delivered c cs' keep seen st).
Proof.
  intros Hcs Hopen.
  destruct (offer_open c msg (g c) cs Hopen) as (cs' & keep & seen & Hoff & Hspec).
  exists cs', keep, seen. split; [done|]. split; [done|].
  unfold deliver. rewrite Hcs, Hoff. done.
Qed.

Lemma delivered_live c cs' keep seen st c' :
  live (delivered c cs' keep seen st) c' ↔
  live st c' ∧ (c' = c → keep = true).
Proof.
  rewrite !live_lookup. unfold delivered; simpl.
  destruct keep; simpl; [tauto|].
  rewrite lookup_delete_Some. split.
  - intros [Hne H]. split; [done|]. intros ->. by destruct Hne.
  - intros [H Hc]. split; [|done]. intros <-. by specialize (Hc eq_refl).
Qed.

Lemma delivered_coherent c msg cs cs' keep seen st :
  coherent st → heap st !! c = Some cs → Chan.closed (send cs) = false →
  offered c msg cs cs' keep seen →
  coherent (delivered c cs' keep seen st).
Proof.
  intros Hc Hcs Hopen Hoff. split.
  - intros c' b. unfold delivered; simpl. destruct keep; simpl.
    + apply (coh_true _ Hc).
    + rewrite lookup_delete_Some. intros [_ H]. by apply (coh_true _ Hc) in H.
  - intros c' Hl. apply delivered_live in Hl as [Hl Hk].
    unfold delivered; simpl. destruct (decide (c' = c)) as [->|Hne].
    + rewrite lookup_insert_eq. exists cs'. split; [done|].
      rewrite (off_closed _ _ _ _ _ _ Hoff), Hk; done.
    + rewrite lookup_insert_ne by done. by apply (coh_live _ Hc).
  - intros c' cs0. unfold delivered; simpl. destruct (decide (c' = c)) as [->|Hne].
    + rewrite lookup_insert_eq. intros [= <-].
      apply (off_bound _ _ _ _ _ _ Hoff), (coh_bound _ Hc _ _ Hcs).
    + rewrite lookup_insert_ne by done. apply (coh_bound _ Hc).
  - intros c'. unfold closed_count, delivered; simpl.
    rewrite closes_app, (coh_closes _ Hc), (off_closes _ _ _ _ _ _ Hoff).
    unfold closed_count. destruct (decide (c' = c)) as [->|Hne].
    + rewrite lookup_insert_eq, Hcs, Hopen, (off_closed _ _ _ _ _ _ Hoff).
      rewrite bool_decide_eq_true_2 by done. by destruct keep.
    + rewrite lookup_insert_ne by done.
      rewrite bool_decide_eq_false_2 by done. rewrite andb_false_r. lia.
Qed.

Lemma delivered_other c msg cs cs' keep seen st c' :
  offered c msg cs cs' keep seen → c' ≠ c →
  clients (hub (delivered c cs' keep seen st)) !! c' = clients (hub st) !! c' ∧
  heap (delivered c cs' keep seen st) !! c' = heap st !! c' ∧
  enqueued c' (log (delivered c cs' keep seen st)) = enqueued c' (log st) ∧
  closes c' (log (delivered c cs' keep seen st)) = closes c' (log st).
Proof.
  intros Hoff Hne. unfold delivered; simpl.
  rewrite enqueued_app, closes_app, (off_enq _ _ _ _ _ _ Hoff), (off_closes _ _ _ _ _ _ Hoff).
  rewrite bool_decide_eq_false_2 by done. rewrite !andb_false_r, app_nil_r, Nat.add_0_r.
  rewrite lookup_insert_ne by done.
  destruct keep; simpl; [done|]. by rewrite lookup_delete_ne.
Qed.

Lemma delivered_self c msg cs cs' keep seen st :
  offered c msg cs cs' keep seen → live st c →
  heap (delivered c cs' keep seen st) !! c = Some cs' ∧
  is_client (hub (delivered c cs' keep seen st)) c = keep ∧
  enqueued c (log (delivered c cs' keep seen st))
    = enqueued c (log st) ++ (if keep then [msg] else []) ∧
  closes c (log (delivered c cs' keep seen st))
    = (closes c (log st) + (if keep then 0 else 1))%nat.
Proof.
  intros Hoff Hl. unfold delivered; simpl.
  rewrite enqueued_app, closes_app, (off_enq _ _ _ _ _ _ Hoff), (off_closes _ _ _ _ _ _ Hoff).
  rewrite bool_decide_eq_true_2 by done. rewrite !andb_true_r, lookup_insert_eq.
  destruct keep; simpl; [done|].
  unfold is_client; simpl. by rewrite lookup_delete_eq.
Qed.

Lemma fanout_fanned msg g keys st :
  coherent st → NoDup keys → (∀ c, c ∈ keys → live st c) →
  ∃ st', fanout msg g keys st = Ok st' ∧ fanned msg g keys st st'.
Proof.
  revert st. induction keys as [|c keys IH]; intros st Hc Hnd Hlive.
  { exists st. split; [done|]. split; try done. intros c cs Hin. by apply elem_of_nil in Hin. }
  apply NoDup_cons in Hnd as [Hnotin Hnd].
  destruct (coh_live _ Hc c) as (cs & Hcs & Hopen); [apply Hlive; left|].
  destruct (deliver_live msg g c st cs Hcs Hopen) as (cs' & keep & seen & Hoffer & Hoff & Hdel).
  pose proof (delivered_coherent c msg cs cs' keep seen st Hc Hcs Hopen Hoff) as Hc1.
  set (st1 := delivered c cs' keep seen st) in *.
  destruct (IH st1 Hc1 Hnd) as (st' & Hfan & F).
  { intros c' Hin. apply delivered_live. split; [apply Hlive; by right|].
    intros ->. done. }
  exists st'. split; [simpl; by rewrite Hdel|].
  split.
  - apply (fan_coherent _ _ _ _ _ F).
  - rewrite (fan_broadcast _ _ _ _ _ F). unfold st1, delivered; simpl. by destruct keep.
  - rewrite (fan_opts _ _ _ _ _ F). unfold st1, delivered; simpl. by destruct keep.
  - rewrite (fan_dom _ _ _ _ _ F). unfold st1, delivered; simpl.
    apply dom_insert_lookup_L. by eexists.
  - rewrite (fan_disp _ _ _ _ _ F). unfold st1, delivered; simpl.
    by rewrite dispatched_app, (off_disp _ _ _ _ _ _ Hoff), app_nil_r.
  - rewrite (fan_sub _ _ _ _ _ F). unfold st1, delivered; simpl.
    by rewrite submitted_app, (off_sub _ _ _ _ _ _ Hoff), app_nil_r.
  - intros c0 Hc0. apply not_elem_of_cons in Hc0 as [Hne Hc0].
    destruct (fan_other _ _ _ _ _ F c0 Hc0) as (-> & -> & -> & ->).
    by apply (delivered_other c msg cs).
  - intros c0 cs0 Hin Hcs0. apply elem_of_cons in Hin as [->|Hin].
    + assert (cs0 = cs) as -> by congruence.
      exists cs', keep, seen. split; [done|]. split; [done|].
      destruct (fan_other _ _ _ _ _ F c Hnotin) as (Hcl & -> & -> & ->).
      unfold is_client. rewrite Hcl.
      apply (delivered_self c msg cs); [done|]. apply Hlive. left.
    + assert (c0 ≠ c) as Hne by (intros ->; done).
      destruct (delivered_other c msg cs cs' keep seen st c0 Hoff Hne) as (_ & Hh & He & Hk).
      fold st1 in Hh, He, Hk.
      destruct (fan_key _ _ _ _ _ F c0 cs0 Hin) as (cs0' & keep0 & seen0 & ? & ? & ? & ? & ? & ?);
        [congruence|].
      exists cs0', keep0, seen0. rewrite <- He, <- Hk. done.
Qed.

(** ** The three cases of [Run] *)

Lemma closes_snoc_other c l o :
  (∀ c', o ≠ Closed c') → closes c (l ++ [o]) = closes c l.
Proof.
  intros Ho. rewrite closes_app. unfold closes at 2; simpl.
  destruct o; simpl; try lia. by destruct (Ho c0).
Qed.

Lemma enqueued_snoc_other c l o :
  (∀ c' m, o ≠ Enqueued c' m) → enqueued c (l ++ [o]) = enqueued c l.
Proof.
  intros Ho. rewrite enqueued_app. unfold enqueued at 2; simpl.
  destruct o; simpl; rewrite ?app_nil_r; try done. by destruct (Ho c0 m).
Qed.

Lemma coherent_ext st st' :
  clients (hub st') = clients (hub st) → heap st' = heap st →
  (∀ c, closes c (log st') = closes c (log st)) →
  coherent st → coherent st'.
Proof.
  intros Hcl Hh Hl [H1 H2 H3 H4]. split.
  - intros c b. rewrite Hcl. apply H1.
  - intros c Hlive. rewrite Hh. apply H2. revert Hlive. unfold live, is_client. by rewrite Hcl.
  - intros c cs. rewrite Hh. apply H3.
  - intros c. rewrite Hl, H4. unfold closed_count. by rewrite Hh.
Qed.

Lemma Run_broadcast msg pref g st :
  coherent st →
  ∃ st', Run_step (OnBroadcast msg pref g) st = Ok st' ∧
    fanned msg g (range_keys (clients (hub st)) pref) (dispatching msg st) st'.
Proof.
  intros Hc. simpl. apply fanout_fanned.
  - apply (coherent_ext st); try done. intros c. by apply closes_snoc_other.
  - apply range_keys_NoDup.
  - intros c Hin. apply elem_of_range_keys in Hin.
    by apply (live_is_Some st c Hc).
Qed.

Lemma Run_register c cs st :
  coherent st → heap st !! c = Some cs → Chan.closed (send cs) = false →
  ∃ st', Run_step (OnRegister c) st = Ok st' ∧ coherent st' ∧ live st' c ∧
    clients (hub st') = <[c := true]> (clients (hub st)) ∧
    broadcast (hub st') = broadcast (hub st) ∧ opts (hub st') = opts (hub st) ∧
    heap st' = heap st ∧ log st' = log st.
Proof.
  intros Hc Hcs Hopen. eexists. split; [done|]. split; [|split; [|done]].
  - split; simpl.
    + intros c' b. rewrite lookup_insert_Some. intros [[_ <-]|[_ H]]; [done|].
      by apply (coh_true _ Hc) in H.
    + intros c' Hl. apply live_lookup in Hl. simpl in Hl.
      apply lookup_insert_Some in Hl as [[<- _]|[_ Hl]]; [by exists cs|].
      by apply (coh_live _ Hc), live_lookup.
    + apply (coh_bound _ Hc).
    + apply (coh_closes _ Hc).
  - apply live_lookup. simpl. by rewrite lookup_insert_eq.
Qed.

Lemma Run_unregister_absent c st : ¬ live st c → Run_step (OnUnregister c) st = Ok st.
Proof. intros Hl. apply not_live in Hl. simpl. by rewrite Hl. Qed.

Lemma Run_unregister_live c st :
  coherent st → live st c →
  ∃ cs st', heap st !! c = Some cs ∧ Chan.closed (send cs) = false ∧
    Run_step (OnUnregister c) st = Ok st' ∧ coherent st' ∧
    hub st' = set_clients (delete c (clients (hub st))) (hub st) ∧
    heap st' = <[c := set_send (Chan.Make (Chan.cap (send cs)) (Chan.buf (send cs)) true) cs]>
                 (heap st) ∧
    log st' = log st ++ [Closed c].
Proof.
  intros Hc Hl. destruct (coh_live _ Hc c Hl) as (cs & Hcs & Hopen).
  exists cs. eexists. split; [done|]. split; [done|].
  split. { simpl. rewrite Hl, Hcs. unfold Chan.close. rewrite Hopen. done. }
  split; [|done]. split; simpl.
  - intros c' b. rewrite lookup_delete_Some. intros [_ H]. by apply (coh_true _ Hc) in H.
  - intros c' Hl'. apply live_lookup in Hl'. simpl in Hl'.
    apply lookup_delete_Some in Hl' as [Hne Hl'].
    rewrite lookup_insert_ne by done. by apply (coh_live _ Hc), live_lookup.
  - intros c' cs'. rewrite lookup_insert_Some. intros [[_ <-]|[_ H]]; simpl.
    + apply (coh_bound _ Hc _ _ Hcs).
    + apply (coh_bound _ Hc _ _ H).
  - intros c'. rewrite closes_app, (coh_closes _ Hc), closes_one.
    unfold closed_count; simpl. destruct (decide (c' = c)) as [->|Hne].
    + rewrite lookup_insert_eq, Hcs, Hopen, bool_decide_eq_true_2 by done. done.
    + rewrite lookup_insert_ne, bool_decide_eq_false_2 by done. lia.
Qed.

(** ** The invariant of the program *)

Lemma withDefaults_SendCap_pos o : 0 < SendCap (withDefaults o).
Proof.
  unfold withDefaults.
  destruct (Z.leb_spec (SendCap o) 0); simpl;
    destruct (Z.leb_spec (MaxMessageSize o) 0); simpl;
    destruct (CheckOrigin o); simpl; lia.
Qed.

Lemma boot_sound o : sound (boot o).
Proof.
  assert (∀ c, ¬ live (boot o) c) as Hnone.
  { intros c Hl. apply live_lookup in Hl. simpl in Hl. by rewrite lookup_empty in Hl. }
  split.
  - split; simpl; try done; intros c Hl; by apply Hnone in Hl.
  - apply withDefaults_SendCap_pos.
  - intros c cs H. simpl in H. by rewrite lookup_empty in H.
  - done.
  - done.
  - intros c Hl. by apply Hnone in Hl.
  - done.
  - intros c cs H. simpl in H. by rewrite lookup_empty in H.
  - done.
  - intros c cs H. simpl in H. by rewrite lookup_empty in H.
  - done.
Qed.

Lemma dispatched_snoc_other l o :
  (∀ m, o ≠ Dispatched m) → dispatched (l ++ [o]) = dispatched l.
Proof.
  intros Ho. rewrite dispatched_app. unfold dispatched at 2; simpl.
  destruct o; simpl; rewrite ?app_nil_r; try done. by destruct (Ho m).
Qed.

Lemma submitted_snoc_other l o :
  (∀ m, o ≠ Submitted m) → submitted (l ++ [o]) = submitted l.
Proof.
  intros Ho. rewrite submitted_app. unfold submitted at 2; simpl.
  destruct o; simpl; rewrite ?app_nil_r; try done. by destruct (Ho m).
Qed.

(** A send on [h.broadcast]. *)
Lemma submit_sound b st :
  sound st →
  (submit b st = None ∧
     (Chan.cap (broadcast (hub st)) ≤ length (Chan.buf (broadcast (hub st))))%nat) ∨
  (∃ st', submit b st = Some (Ok st') ∧ sound st' ∧
     clients (hub st') = clients (hub st) ∧ heap st' = heap st ∧
     Chan.buf (broadcast (hub st')) = Chan.buf (broadcast (hub st)) ++ [b] ∧
     log st' = log st ++ [Submitted b]).
Proof.
  intros S. unfold submit.
  destruct (send_nb_open b _ (snd_open _ S)) as [[Hlt ->]|[Hge ->]]; [right|left; done].
  eexists. split; [done|]. split; [|done].
  destruct S as [C ? ? ? ? ? ? ? ? ? ?]. split; simpl; try done.
  - apply (coherent_ext st); try done. intros c. by apply closes_snoc_other.
  - rewrite submitted_app, dispatched_snoc_other by done.
    rewrite snd_fifo0. by rewrite app_assoc.
  - intros c Hl. rewrite enqueued_snoc_other, dispatched_snoc_other by done. by apply snd_live0.
  - intros c. rewrite enqueued_snoc_other, dispatched_snoc_other by done. done.
  - intros c cs Hcs. rewrite enqueued_snoc_other by done. by apply snd_pending0.
  - intros c Hcs. rewrite enqueued_snoc_other by done. by apply snd_fresh0.
Qed.

(** A goroutine of a client moving on its own. *)
Lemma alter_sound f c st :
  (∀ cs, drained cs (f cs)) → sound st →
  sound {| hub := hub st; heap := alter f c (heap st); log := log st |}.
Proof.
  intros Hf S. pose proof (snd_coherent _ S) as C.
  assert (∀ c' cs', alter f c (heap st) !! c' = Some cs' →
            ∃ cs, heap st !! c' = Some cs ∧ drained cs cs') as Hback.
  { intros c' cs'. rewrite lookup_alter. destruct (decide (c = c')) as [->|Hne].
    - destruct (heap st !! c') as [cs|]; simpl; [|done]. intros [= <-]. by exists cs.
    - intros H. exists cs'. split; [done|apply drained_refl]. }
  split; simpl.
  - split; simpl.
    + apply (coh_true _ C).
    + intros c' Hl. destruct (coh_live _ C c' Hl) as (cs & Hcs & Hopen).
      rewrite lookup_alter. destruct (decide (c = c')) as [->|Hne]; [|by exists cs].
      rewrite Hcs; simpl. exists (f cs). split; [done|].
      by rewrite (drained_closed _ _ (Hf cs)).
    + intros c' cs' H. destruct (Hback _ _ H) as (cs & Hcs & D).
      pose proof (coh_bound _ C _ _ Hcs). pose proof (suffix_length _ _ (drained_buf _ _ D)).
      rewrite (drained_cap _ _ D). lia.
    + intros c'. rewrite (coh_closes _ C). unfold closed_count; simpl.
      rewrite lookup_alter. destruct (decide (c = c')) as [->|Hne]; [|done].
      destruct (heap st !! c') as [cs|]; simpl; [|done].
      by rewrite (drained_closed _ _ (Hf cs)).
  - apply (snd_cap_pos _ S).
  - intros c' cs' H. destruct (Hback _ _ H) as (cs & Hcs & D).
    rewrite (drained_cap _ _ D). by apply (snd_caps _ S c').
  - apply (snd_open _ S).
  - apply (snd_fifo _ S).
  - apply (snd_live _ S).
  - apply (snd_order _ S).
  - intros c' cs' H. destruct (Hback _ _ H) as (cs & Hcs & D).
    etrans; [apply (drained_pending _ _ D)|]. by apply (snd_pending _ S).
  - intros c' H. apply (snd_fresh _ S). rewrite lookup_alter in H.
    destruct (decide (c = c')) as [->|Hne]; [|done].
    by destruct (heap st !! c').
  - intros c' cs' H. destruct (Hback _ _ H) as (cs & Hcs & D).
    apply (drained_wire _ _ D). by apply (snd_wire _ S c').
  - apply (snd_bcap _ S).
Qed.

Lemma set_rp_done_drained cs : drained cs (set_rp_done cs).
Proof. by split. Qed.

Lemma Run_broadcasted msg pref g st :
  coherent st →
  ∃ st', Run_step (OnBroadcast msg pref g) st = Ok st' ∧ broadcasted msg g st st'.
Proof.
  intros Hc. destruct (Run_broadcast msg pref g st Hc) as (st' & Hrun & F).
  exists st'. split; [done|].
  assert (∀ c, c ∈ range_keys (clients (hub st)) pref ↔ live st c) as Hkeys.
  { intros c. rewrite elem_of_range_keys. symmetry. by apply live_is_Some. }
  assert (∀ c, enqueued c (log (dispatching msg st)) = enqueued c (log st)) as He.
  { intros c. by apply enqueued_snoc_other. }
  assert (∀ c, closes c (log (dispatching msg st)) = closes c (log st)) as Hk.
  { intros c. by apply closes_snoc_other. }
  split.
  - apply (fan_coherent _ _ _ _ _ F).
  - apply (fan_broadcast _ _ _ _ _ F).
  - apply (fan_opts _ _ _ _ _ F).
  - apply (fan_dom _ _ _ _ _ F).
  - rewrite (fan_disp _ _ _ _ _ F). apply dispatched_app.
  - rewrite (fan_sub _ _ _ _ _ F). by apply submitted_snoc_other.
  - intros c Hl. rewrite <- Hkeys in Hl.
    destruct (fan_other _ _ _ _ _ F c Hl) as (-> & -> & -> & ->). by rewrite He, Hk.
  - intros c Hl. destruct (coh_live _ Hc c Hl) as (cs & Hcs & Hopen).
    apply Hkeys in Hl.
    destruct (fan_key _ _ _ _ _ F c cs Hl Hcs) as (cs' & keep & seen & ? & ? & ? & ? & ? & ?).
    exists cs, cs', keep, seen. rewrite <- He, <- Hk. done.
Qed.

(** ** Every step keeps the invariant *)

Lemma ServeWs_sound st :
  sound st →
  ∃ st', ServeWs st = Ok st' ∧ sound st' ∧
    heap st !! fresh (dom (heap st)) = None ∧ live st' (fresh (dom (heap st))) ∧
    clients (hub st') = <[fresh (dom (heap st)) := true]> (clients (hub st)) ∧
    heap st' = <[fresh (dom (heap st)) :=
                   {| send := Chan.make (Z.to_nat (SendCap (opts (hub st))));
                      conn_out := []; rp_done := false; wp_done := false |}]> (heap st) ∧
    log st' = log st.
Proof.
  intros S. pose proof (snd_coherent _ S) as C.
  set (cl := fresh (dom (heap st))).
  assert (heap st !! cl = None) as Hfresh by (apply not_elem_of_dom, is_fresh).
  assert (¬ live st cl) as Hdead.
  { intros Hl. destruct (coh_live _ C cl Hl) as (cs & Hcs & _). congruence. }
  eexists. split; [done|]. split; [|split; [done|]; split; [|done]].
  - split; simpl.
    + split; simpl.
      * intros c b. rewrite lookup_insert_Some. intros [[_ <-]|[_ H]]; [done|].
        by apply (coh_true _ C) in H.
      * intros c Hl. apply live_lookup in Hl. simpl in Hl.
        apply lookup_insert_Some in Hl as [[<- _]|[Hne Hl]].
        -- fold cl. rewrite lookup_insert_eq. by eexists.
        -- fold cl. rewrite lookup_insert_ne by done. by apply (coh_live _ C), live_lookup.
      * intros c cs. fold cl. rewrite lookup_insert_Some. intros [[_ <-]|[_ H]]; simpl; [lia|].
        by apply (coh_bound _ C c).
      * intros c. rewrite (coh_closes _ C). unfold closed_count; simpl. fold cl.
        destruct (decide (cl = c)) as [<-|Hne].
        -- by rewrite lookup_insert_eq, Hfresh.
        -- by rewrite lookup_insert_ne.
    + apply (snd_cap_pos _ S).
    + intros c cs. fold cl. rewrite lookup_insert_Some. intros [[_ <-]|[_ H]]; [done|].
      by apply (snd_caps _ S c).
    + apply (snd_open _ S).
    + apply (snd_fifo _ S).
    + intros c Hl. apply live_lookup in Hl. simpl in Hl.
      apply lookup_insert_Some in Hl as [[<- _]|[Hne Hl]].
      * fold cl. rewrite (snd_fresh _ S cl Hfresh). apply suffix_nil.
      * by apply (snd_live _ S), live_lookup.
    + apply (snd_order _ S).
    + intros c cs. fold cl. rewrite lookup_insert_Some. intros [[<- <-]|[_ H]].
      * apply sublist_nil_l.
      * by apply (snd_pending _ S).
    + intros c. fold cl. rewrite lookup_insert_None. intros [H _]. by apply (snd_fresh _ S).
    + intros c cs. fold cl. rewrite lookup_insert_Some. intros [[_ <-]|[_ H]].
      * constructor.
      * by apply (snd_wire _ S c).
    + apply (snd_bcap _ S).
  - apply live_lookup. simpl. by rewrite lookup_insert_eq.
Qed.

Lemma unregister_sound c st :
  sound st → ∃ st', Run_step (OnUnregister c) st = Ok st' ∧ sound st'.
Proof.
  intros S. pose proof (snd_coherent _ S) as C.
  destruct (decide (live st c)) as [Hl|Hl];
    [|exists st; split; [by apply Run_unregister_absent|done]].
  destruct (Run_unregister_live c st C Hl) as (cs & st' & Hcs & Hopen & Hrun & C' & Hh & Hp & Hlog).
  exists st'. split; [done|].
  assert (∀ c', enqueued c' (log st') = enqueued c' (log st)) as He.
  { intros c'. rewrite Hlog. by apply enqueued_snoc_other. }
  assert (dispatched (log st') = dispatched (log st)) as Hd.
  { rewrite Hlog. by apply dispatched_snoc_other. }
  split; rewrite ?Hh, ?He, ?Hd; simpl.
  - done.
  - apply (snd_cap_pos _ S).
  - intros c' cs'. rewrite Hp, lookup_insert_Some. intros [[_ <-]|[_ H]]; simpl.
    + by apply (snd_caps _ S c).
    + by apply (snd_caps _ S c').
  - apply (snd_open _ S).
  - rewrite Hlog, submitted_snoc_other by done. apply (snd_fifo _ S).
  - intros c' Hl'. rewrite ?He, ?Hd. apply (snd_live _ S).
    apply live_lookup in Hl'. rewrite Hh in Hl'. simpl in Hl'.
    apply lookup_delete_Some in Hl' as [_ Hl']. by apply live_lookup.
  - intros c'. rewrite ?He, ?Hd. apply (snd_order _ S).
  - intros c' cs'. rewrite He, Hp, lookup_insert_Some. intros [[<- <-]|[_ H]].
    + pose proof (snd_pending _ S c cs Hcs) as Hq. unfold pending in *. done.
    + by apply (snd_pending _ S c').
  - intros c'. rewrite He, Hp, lookup_insert_None. intros [H _]. by apply (snd_fresh _ S).
  - intros c' cs'. rewrite Hp, lookup_insert_Some. intros [[_ <-]|[_ H]]; simpl.
    + by apply (snd_wire _ S c).
    + by apply (snd_wire _ S c').
  - apply (snd_bcap _ S).
Qed.

Lemma dispatch_sound pref g st :
  sound st → ∃ st', step (EvDispatch pref g) st = Ok st' ∧ sound st'.
Proof.
  intros S. pose proof (snd_coherent _ S) as C. simpl. unfold Chan.recv_nb.
  destruct (Chan.buf (broadcast (hub st))) as [|msg rest] eqn:Hbuf.
  { rewrite (snd_open _ S). by exists st. }
  set (st0 := {| hub := set_broadcast (Chan.with_buf rest (broadcast (hub st))) (hub st);
                 heap := heap st; log := log st |}).
  assert (coherent st0) as C0 by (by apply (coherent_ext st)).
  destruct (Run_broadcasted msg pref g st0 C0) as (st' & Hrun & B).
  exists st'. split; [done|].
  assert (∀ c, live st0 c ↔ live st c) as Hlive by done.
  assert (∀ c cs', heap st' !! c = Some cs' →
            ∃ cs, heap st !! c = Some cs ∧
              (cs' = cs ∧ enqueued c (log st') = enqueued c (log st) ∨
               ∃ keep seen, offered c msg cs cs' keep seen ∧
                 enqueued c (log st') = enqueued c (log st) ++ (if keep then [msg] else [])))
    as Hback.
  { intros c cs' Hcs'. destruct (decide (live st c)) as [Hl|Hl].
    - destruct (bc_live _ _ _ _ B c Hl) as (cs & cs1 & keep & seen & ? & ? & ? & ? & ? & ? & ? & ?).
      exists cs. split; [done|]. right. exists keep, seen. split; [congruence|done].
    - destruct (bc_idle _ _ _ _ B c Hl) as (_ & Hh & He & _).
      exists cs'. split; [rewrite Hh in Hcs'; exact Hcs'|]. left. split; [done|exact He]. }
  split.
  - apply (bc_coherent _ _ _ _ B).
  - rewrite (bc_opts _ _ _ _ B). apply (snd_cap_pos _ S).
  - intros c cs' Hcs'. rewrite (bc_opts _ _ _ _ B).
    destruct (Hback c cs' Hcs') as (cs & Hcs & [[-> _]|(keep & seen & Hoff & _)]).
    + by apply (snd_caps _ S c).
    + rewrite (off_cap _ _ _ _ _ _ Hoff). by apply (snd_caps _ S c).
  - rewrite (bc_broadcast _ _ _ _ B). simpl. apply (snd_open _ S).
  - rewrite (bc_sub _ _ _ _ B), (bc_disp _ _ _ _ B), (bc_broadcast _ _ _ _ B). simpl.
    rewrite (snd_fifo _ S), Hbuf. by rewrite <- app_assoc.
  - intros c Hl. rewrite (bc_disp _ _ _ _ B). simpl.
    destruct (decide (live st c)) as [Hl0|Hl0].
    + destruct (bc_live _ _ _ _ B c Hl0) as (cs & cs1 & keep & seen & _ & _ & _ & _ & _ & Hk & -> & _).
      unfold live in Hl. rewrite Hk in Hl. subst keep. simpl.
      by apply suffix_app, (snd_live _ S).
    + destruct (bc_idle _ _ _ _ B c Hl0) as (Hcl & _). destruct Hl0.
      apply live_lookup. apply live_lookup in Hl. rewrite Hcl in Hl. exact Hl.
  - intros c. rewrite (bc_disp _ _ _ _ B). simpl.
    destruct (decide (live st c)) as [Hl0|Hl0].
    + destruct (bc_live _ _ _ _ B c Hl0) as (cs & cs1 & keep & seen & _ & _ & _ & _ & _ & _ & -> & _).
      apply sublist_app; [apply (snd_order _ S)|]. destruct keep; [done|apply sublist_nil_l].
    + destruct (bc_idle _ _ _ _ B c Hl0) as (_ & _ & -> & _).
      apply sublist_inserts_r, (snd_order _ S).
  - intros c cs' Hcs'.
    destruct (Hback c cs' Hcs') as (cs & Hcs & [[-> ->]|(keep & seen & Hoff & ->)]).
    + by apply (snd_pending _ S c).
    + etrans; [apply (off_pending _ _ _ _ _ _ Hoff)|].
      apply sublist_app; [by apply (snd_pending _ S c)|done].
  - intros c Hnone.
    assert (heap st !! c = None) as Hnone0.
    { apply not_elem_of_dom. change (c ∉ dom (heap st0)).
      rewrite <- (bc_dom _ _ _ _ B). by apply not_elem_of_dom. }
    assert (¬ live st c) as Hl0.
    { intros Hl0. destruct (coh_live _ C c Hl0) as (cs & Hcs & _). congruence. }
    destruct (bc_idle _ _ _ _ B c Hl0) as (_ & _ & -> & _). by apply (snd_fresh _ S).
  - intros c cs' Hcs'.
    destruct (Hback c cs' Hcs') as (cs & Hcs & [[-> _]|(keep & seen & Hoff & _)]).
    + by apply (snd_wire _ S c).
    + apply (off_wire _ _ _ _ _ _ Hoff). by apply (snd_wire _ S c).
  - rewrite (bc_broadcast _ _ _ _ B). simpl. apply (snd_bcap _ S).
Qed.

Lemma step_sound ev st : sound st → ∃ st', step ev st = Ok st' ∧ sound st'.
Proof.
  intros S. destruct ev as [|c r|c k|b|pref g].
  - destruct (ServeWs_sound st S) as (st' & ? & ? & _). by exists st'.
  - simpl. unfold readPump_iter.
    destruct (heap st !! c) as [cs|]; [|by exists st].
    destruct (rp_done cs); [by exists st|].
    destruct r as [mt message|].
    + destruct (submit_sound message st S) as [[-> _]|(st' & -> & ? & _)];
        [by exists st|by exists st'].
    + destruct (unregister_sound c st S) as (st' & -> & S').
      eexists. split; [done|]. apply (alter_sound set_rp_done c st'); [|done].
      apply set_rp_done_drained.
  - eexists. split; [done|]. apply alter_sound; [|done]. apply writePump_iter_drained.
  - simpl. unfold Broadcast.
    destruct (submit_sound b st S) as [[-> _]|(st' & -> & ? & _)];
      [by exists st|by exists st'].
  - by apply dispatch_sound.
Qed.

(** No interleaving makes the program panic, and every state it reaches
    is sound. *)
Lemma exec_sound evs st : sound st → ∃ st', exec evs st = Ok st' ∧ sound st'.
Proof.
  revert st. induction evs as [|ev evs IH]; intros st S; [by exists st|].
  destruct (step_sound ev st S) as (st1 & Hstep & S1).
  destruct (IH st1 S1) as (st' & Hexec & S').
  exists st'. split; [|done]. simpl. by rewrite Hstep.
Qed.

(** ** The backpressure policy *)

Lemma suffix_drop {A} (l' l : list A) :
  l' `suffix_of` l → l' = drop (length l - length l') l.
Proof.
  intros [front ->]. rewrite length_app.
  replace (length front + length l' - length l')%nat with (length front) by lia.
  by rewrite drop_app_length.
Qed.

Lemma take_oldest_buf c cs :
  Chan.buf (send (take_oldest c cs).1) = tail (Chan.buf (send cs)).
Proof.
  unfold take_oldest, Chan.recv_nb.
  destruct cs as [[n q cl] out rp wp]; simpl.
  destruct q as [|m q]; simpl; [by destruct cl|done].
Qed.

Lemma taken_buf ks cs :
  Chan.buf (send (writePump_run ks cs)) = drop (taken ks cs) (Chan.buf (send cs)).
Proof. apply suffix_drop, (drained_buf _ _ (writePump_run_drained ks cs)). Qed.

Lemma offer_policy c msg g cs :
  Chan.closed (send cs) = false →
  ∃ cs' keep seen, offer c msg g cs = Ok (cs', keep, seen) ∧
    match backpressure_policy (Chan.cap (send cs)) msg (Chan.buf (send cs))
            (taken g.1 cs) (taken g.2 (take_oldest c (writePump_run g.1 cs)).1) with
    | Some q => keep = true ∧ Chan.buf (send cs') = q
    | None => keep = false
    end.
Proof.
  intros Hopen. rewrite offer_unfold. unfold backpressure_policy.
  destruct (send_nb_open msg (send cs) Hopen) as [[Hlt ->]|[Hge ->]].
  { eexists _, _, _. split; [done|].
    destruct (Nat.ltb_spec (length (Chan.buf (send cs))) (Chan.cap (send cs))); [done|lia]. }
  destruct (Nat.ltb_spec (length (Chan.buf (send cs))) (Chan.cap (send cs))); [lia|].
  simpl.
  rewrite <- taken_buf, <- (take_oldest_buf c), <- taken_buf.
  set (t := take_oldest c (writePump_run g.1 cs)).
  set (cs3 := writePump_run g.2 t.1).
  assert (D : drained cs cs3).
  { eapply drained_trans; [apply writePump_run_drained|].
    eapply drained_trans; [apply (take_oldest_drained c)|apply writePump_run_drained]. }
  assert (Hopen3 : Chan.closed (send cs3) = false) by (by rewrite (drained_closed _ _ D)).
  rewrite <- (drained_cap _ _ D).
  destruct (send_nb_open msg (send cs3) Hopen3) as [[Hlt ->]|[Hge3 ->]].
  - eexists _, _, _. split; [done|].
    destruct (Nat.ltb_spec (length (Chan.buf (send cs3))) (Chan.cap (send cs3))); [done|lia].
  - unfold Chan.close. rewrite Hopen3. eexists _, _, _. split; [done|].
    destruct (Nat.ltb_spec (length (Chan.buf (send cs3))) (Chan.cap (send cs3))); [lia|done].
Qed.

(** C1. For every payload that [Run] takes from [h.broadcast] and every
    client [c] in [h.clients], the loop follows the three steps of the
    backpressure policy on the queue of [c]: it enqueues the payload if
    there is room; if the queue is full it takes the oldest payload away
    (if one is there) and tries the enqueue once more; and if that fails
    it closes the queue and deletes [c] from [h.clients] in the same
    iteration.  A client whose write pump stands still has [k1 = k2 = 0]. *)
Theorem Run_broadcast_three_steps msg pref g st c :
  coherent st → live st c →
  ∃ st' cs cs' k1 k2,
    Run_step (OnBroadcast msg pref g) st = Ok st' ∧
    heap st !! c = Some cs ∧ heap st' !! c = Some cs' ∧
    (g c = ([], []) → k1 = 0%nat ∧ k2 = 0%nat) ∧
    match backpressure_policy (Chan.cap (send cs)) msg (Chan.buf (send cs)) k1 k2 with
    | Some q =>
        Chan.buf (send cs') = q ∧ Chan.closed (send cs') = false ∧ live st' c ∧
        enqueued c (log st') = enqueued c (log st) ++ [msg] ∧
        closes c (log st') = closes c (log st)
    | None =>
        Chan.closed (send cs') = true ∧ ¬ live st' c ∧
        enqueued c (log st') = enqueued c (log st) ∧
        closes c (log st') = S (closes c (log st))
    end.
Proof.
  intros Hc Hl.
  destruct (Run_broadcasted msg pref g st Hc) as (st' & Hrun & B).
  destruct (bc_live _ _ _ _ B c Hl)
    as (cs & cs' & keep & seen & Hcs & Hopen & Hoffer & Hoff & Hcs' & Hk & He & Hn).
  destruct (offer_policy c msg (g c) cs Hopen) as (cs1 & keep1 & seen1 & Hoffer1 & Hpol).
  rewrite Hoffer in Hoffer1. injection Hoffer1 as <- <- <-.
  exists st', cs, cs', (taken (g c).1 cs),
    (taken (g c).2 (take_oldest c (writePump_run (g c).1 cs)).1).
  split; [done|]. split; [done|]. split; [done|]. split.
  { intros Hg. rewrite Hg. unfold taken; simpl. split; apply Nat.sub_diag. }
  destruct (backpressure_policy _ _ _ _ _) as [q|].
  - destruct Hpol as [-> Hq]. rewrite (off_closed _ _ _ _ _ _ Hoff), He, Hn.
    split; [done|]. split; [done|]. split; [done|]. split; [done|]. simpl. lia.
  - destruct keep; [discriminate|].
    rewrite (off_closed _ _ _ _ _ _ Hoff), He, Hn. simpl.
    split; [done|]. split; [by apply not_live|]. split; [by rewrite app_nil_r|]. lia.
Qed.

(** ** A client whose write pump stands still *)

Lemma keep_last_all {A} (n : nat) (l : list A) : (length l ≤ n)%nat → keep_last n l = l.
Proof. intros H. unfold keep_last. by replace (length l - n)%nat with 0%nat by lia. Qed.

Lemma keep_last_app {A} (n : nat) (l k : list A) :
  keep_last n (keep_last n l ++ k) = keep_last n (l ++ k).
Proof.
  unfold keep_last. rewrite !length_app, length_drop.
  destruct (Nat.le_gt_cases (length l) n) as [Hle|Hgt].
  - replace (length l - n)%nat with 0%nat by lia. simpl. by rewrite Nat.sub_0_r.
  - replace (length l - (length l - n) + length k - n)%nat with (length k) by lia.
    replace (length l + length k - n)%nat with ((length l - n) + length k)%nat by lia.
    rewrite <- drop_drop. f_equal. rewrite drop_app_le by lia. done.
Qed.

Lemma offer_paused c msg cs :
  Chan.closed (send cs) = false →
  (length (Chan.buf (send cs)) ≤ Chan.cap (send cs))%nat →
  (1 ≤ Chan.cap (send cs))%nat →
  ∃ seen, offer c msg ([], []) cs
          = Ok (set_send (Chan.with_buf (keep_last (Chan.cap (send cs))
                                           (Chan.buf (send cs) ++ [msg])) (send cs)) cs,
                true, seen).
Proof.
  destruct cs as [[n q cl] out rp wp]; simpl. intros -> Hle Hn.
  unfold offer, Chan.send_nb; simpl.
  destruct (Nat.ltb_spec (length q) n) as [Hlt|Hge].
  - eexists. rewrite keep_last_all by (rewrite length_app; simpl; lia). done.
  - unfold Chan.recv_nb; simpl. destruct q as [|m q]; simpl in *; [lia|].
    destruct (Nat.ltb_spec (length q) n) as [Hlt|Hge']; [|lia].
    eexists. unfold Chan.with_buf, set_send; simpl.
    unfold keep_last; simpl. rewrite length_app; simpl.
    replace (S (length q + 1) - n)%nat with 1%nat by lia. done.
Qed.

Lemma coherent_open_closes st c cs :
  coherent st → heap st !! c = Some cs → Chan.closed (send cs) = false →
  closes c (log st) = 0%nat.
Proof.
  intros Hc Hcs Hopen. rewrite (coh_closes _ Hc). unfold closed_count. by rewrite Hcs, Hopen.
Qed.

Lemma coherent_closes_le st c : coherent st → (closes c (log st) ≤ 1)%nat.
Proof.
  intros Hc. rewrite (coh_closes _ Hc). unfold closed_count.
  destruct (heap st !! c) as [cs|]; [destruct (Chan.closed (send cs))|]; lia.
Qed.

(** C2, as the code has it.  A client whose write pump stands still and
    whose queue has a capacity [N] of at least one is never removed by
    broadcasts, however many: after any number of them it is still in
    [h.clients], its queue is open and was never closed, and the queue
    holds the last [N] of the payloads it held and was sent. *)
Theorem paused_client_keeps_latest c bs st cs :
  coherent st → live st c → heap st !! c = Some cs →
  (1 ≤ Chan.cap (send cs))%nat → stands_still c bs →
  ∃ st' cs',
    Run (broadcasts bs) st = Ok st' ∧ live st' c ∧ heap st' !! c = Some cs' ∧
    Chan.cap (send cs') = Chan.cap (send cs) ∧
    Chan.closed (send cs') = false ∧
    Chan.buf (send cs') = keep_last (Chan.cap (send cs)) (Chan.buf (send cs) ++ bs.*1.*1) ∧
    closes c (log st') = 0%nat.
Proof.
  revert st cs. induction bs as [|[[msg pref] g] bs IH]; intros st cs Hc Hl Hcs Hcap Hstill.
  { destruct (coh_live _ Hc c Hl) as (cs0 & Hcs0 & Hopen).
    assert (cs0 = cs) as -> by congruence.
    exists st, cs. simpl. rewrite app_nil_r.
    rewrite keep_last_all by (by apply (coh_bound _ Hc c)).
    repeat split; try done. by apply (coherent_open_closes st c cs). }
  apply Forall_cons in Hstill as [Hg Hstill]. simpl in Hg.
  destruct (Run_broadcasted msg pref g st Hc) as (st1 & Hrun & B).
  destruct (bc_live _ _ _ _ B c Hl)
    as (cs0 & cs1 & keep & seen & Hcs0 & Hopen & Hoffer & Hoff & Hcs1 & Hk & _ & _).
  assert (cs0 = cs) as -> by congruence.
  destruct (offer_paused c msg cs Hopen (coh_bound _ Hc c cs Hcs) Hcap) as (seen' & Hp).
  rewrite Hg, Hp in Hoffer. injection Hoffer as <- <- <-.
  destruct (IH st1 _ (bc_coherent _ _ _ _ B) Hk Hcs1) as (st' & cs' & Hrun' & ? & ? & Hcap' & ? & Hbuf & ?);
    [done|done|].
  exists st', cs'. split.
  { change (Run (broadcasts ((msg, pref, g) :: bs)) st)
      with (st1 ← Run_step (OnBroadcast msg pref g) st; Run (broadcasts bs) st1).
    by rewrite Hrun. }
  repeat split; try done.
  simpl in *. rewrite Hbuf, keep_last_app. by rewrite <- app_assoc.
Qed.

(** ** Registering and unregistering *)

Lemma Run_step_built ev st c :
  coherent st → built st c →
  (∀ c', ev = OnRegister c' → c' ≠ c) →
  (∀ c', ev = OnRegister c' → built st c') →
  ∃ st', Run_step ev st = Ok st' ∧ coherent st' ∧ built st' c.
Proof.
  intros Hc [Hdead (cs & Hcs & Hopen)] Hne Hreg.
  destruct ev as [c'|c'|msg pref g].
  - destruct (Hreg c' eq_refl) as [_ (cs' & Hcs' & Hopen')].
    destruct (Run_register c' cs' st Hc Hcs' Hopen') as (st' & Hrun & C' & _ & Hcl & _ & _ & Hh & _).
    exists st'. split; [done|]. split; [done|]. split.
    + rewrite live_lookup, Hcl, lookup_insert_ne by (by apply Hne).
      by rewrite <- live_lookup.
    + exists cs. by rewrite Hh.
  - destruct (decide (live st c')) as [Hl|Hl].
    + destruct (Run_unregister_live c' st Hc Hl) as (cs' & st' & _ & _ & Hrun & C' & Hh & Hp & _).
      assert (c' ≠ c) by (intros ->; done).
      exists st'. split; [done|]. split; [done|]. split.
      * rewrite live_lookup, Hh. simpl. rewrite lookup_delete_ne by done.
        by rewrite <- live_lookup.
      * exists cs. by rewrite Hp, lookup_insert_ne.
    + exists st. split; [by apply Run_unregister_absent|]. split; [done|].
      split; [done|by exists cs].
  - destruct (Run_broadcasted msg pref g st Hc) as (st' & Hrun & B).
    destruct (bc_idle _ _ _ _ B c Hdead) as (Hcl & Hh & _).
    exists st'. split; [done|]. split; [apply (bc_coherent _ _ _ _ B)|]. split.
    + by rewrite live_lookup, Hcl, <- live_lookup.
    + exists cs. by rewrite Hh.
Qed.

Lemma Run_step_coherent ev st :
  coherent st → (∀ c', ev = OnRegister c' → built st c') →
  ∃ st', Run_step ev st = Ok st' ∧ coherent st'.
Proof.
  intros Hc Hreg. destruct ev as [c'|c'|msg pref g].
  - destruct (Hreg c' eq_refl) as [_ (cs' & Hcs' & Hopen')].
    destruct (Run_register c' cs' st Hc Hcs' Hopen') as (st' & Hrun & C' & _).
    by exists st'.
  - destruct (decide (live st c')) as [Hl|Hl].
    + destruct (Run_unregister_live c' st Hc Hl) as (cs' & st' & _ & _ & Hrun & C' & _).
      by exists st'.
    + exists st. split; [by apply Run_unregister_absent|done].
  - destruct (Run_broadcasted msg pref g st Hc) as (st' & Hrun & B).
    exists st'. split; [done|apply (bc_coherent _ _ _ _ B)].
Qed.

(** If every client is handed to [Run] at most once, and as [ServeWs]
    built it, [Run] never panics and keeps the registry coherent. *)
Lemma Run_registered_once evs st :
  coherent st → NoDup (registrations evs) →
  (∀ c, c ∈ registrations evs → built st c) →
  ∃ st', Run evs st = Ok st' ∧ coherent st'.
Proof.
  revert st. induction evs as [|ev evs IH]; intros st Hc Hnd Hb; [by exists st|].
  assert (∀ c', ev = OnRegister c' → built st c') as Hreg.
  { intros c' ->. apply Hb. simpl. left. }
  destruct (Run_step_coherent ev st Hc Hreg) as (st1 & Hrun & C1).
  destruct (IH st1 C1) as (st' & Hrun' & C').
  - destruct ev; simpl in Hnd; try done. by apply NoDup_cons in Hnd as [_ ?].
  - intros c Hin.
    destruct (Run_step_built ev st c Hc) as (st1' & Hrun1 & _ & Hb1); [| |done|].
    + apply Hb. destruct ev; simpl; try done. by right.
    + intros c' -> ->. simpl in Hnd. by apply NoDup_cons in Hnd as [? _].
    + by assert (st1' = st1) as -> by congruence.
  - exists st'. split; [|done]. simpl. by rewrite Hrun.
Qed.

(** C4. [OnUnregister c] for a client in [h.clients] deletes it and closes
    its queue, once; for a client that is not there (after a first
    [OnUnregister], or never registered) it changes nothing and does not
    panic.  So the queue of a client is closed at most once, whatever [Run]
    receives, as long as no client is handed to it twice; and in the
    program, where [ServeWs] hands over each client it builds once, under
    every interleaving. *)
Theorem Unregister_idempotent :
  (∀ st c, coherent st → live st c →
     ∃ st' cs', Run_step (OnUnregister c) st = Ok st' ∧ ¬ live st' c ∧
       heap st' !! c = Some cs' ∧ Chan.closed (send cs') = true ∧
       closes c (log st) = 0%nat ∧ closes c (log st') = 1%nat ∧
       Run_step (OnUnregister c) st' = Ok st') ∧
  (∀ st c, ¬ live st c → Run_step (OnUnregister c) st = Ok st) ∧
  (∀ evs st, coherent st → NoDup (registrations evs) →
     (∀ c, c ∈ registrations evs → built st c) →
     ∃ st', Run evs st = Ok st' ∧ ∀ c, (closes c (log st') ≤ 1)%nat) ∧
  (∀ o evs, ∃ st', exec evs (boot o) = Ok st' ∧ ∀ c, (closes c (log st') ≤ 1)%nat).
Proof.
  split; [|split; [|split]].
  - intros st c Hc Hl.
    destruct (Run_unregister_live c st Hc Hl) as (cs & st' & Hcs & Hopen & Hrun & C' & Hh & Hp & Hlog).
    assert (¬ live st' c) as Hdead.
    { rewrite live_lookup, Hh. simpl. by rewrite lookup_delete_eq. }
    eexists st', _. split; [done|]. split; [done|].
    split; [by rewrite Hp, lookup_insert_eq|]. split; [done|].
    pose proof (coherent_open_closes st c cs Hc Hcs Hopen) as H0.
    split; [done|]. split; [|by apply Run_unregister_absent].
    rewrite Hlog, closes_app, H0, closes_one, bool_decide_eq_true_2; done.
  - intros st c. apply Run_unregister_absent.
  - intros evs st Hc Hnd Hb.
    destruct (Run_registered_once evs st Hc Hnd Hb) as (st' & Hrun & C').
    exists st'. split; [done|]. intros c. by apply coherent_closes_le.
  - intros o evs.
    destruct (exec_sound evs (boot o) (boot_sound o)) as (st' & Hrun & S').
    exists st'. split; [done|]. intros c. apply coherent_closes_le, (snd_coherent _ S').
Qed.

(** ** Order *)

Lemma stepped_same c st st' :
  is_Some (heap st !! c) →
  (is_Some (heap st !! c) → is_Some (heap st' !! c)) →
  (live st' c → live st c) →
  dispatched (log st') = dispatched (log st) →
  enqueued c (log st') = enqueued c (log st) →
  stepped c st st' [].
Proof. intros H0 H1 H2 H3 H4. split; rewrite ?app_nil_r; auto. Qed.

Lemma submit_stepped b c st st' :
  sound st → is_Some (heap st !! c) → submit b st = Some (Ok st') → stepped c st st' [].
Proof.
  intros S Hc Hsub.
  destruct (submit_sound b st S) as [[Hnone _]|(st1 & Hsome & _ & Hcl & Hh & _ & Hlog)];
    [congruence|].
  assert (st1 = st') as -> by congruence.
  apply stepped_same; try done.
  - by rewrite Hh.
  - by rewrite !live_lookup, Hcl.
  - rewrite Hlog. by apply dispatched_snoc_other.
  - rewrite Hlog. by apply enqueued_snoc_other.
Qed.

Lemma unregister_stepped c0 c st st' :
  sound st → is_Some (heap st !! c) → Run_step (OnUnregister c0) st = Ok st' →
  stepped c st st' [].
Proof.
  intros S Hc Hrun. destruct (decide (live st c0)) as [Hl|Hl].
  - destruct (Run_unregister_live c0 st (snd_coherent _ S) Hl)
      as (cs & st1 & _ & _ & Hrun1 & _ & Hh & Hp & Hlog).
    assert (st1 = st') as -> by congruence.
    apply stepped_same; try done.
    + intros _. rewrite Hp, lookup_insert_is_Some. destruct (decide (c0 = c)); auto.
    + rewrite !live_lookup, Hh. simpl. rewrite lookup_delete_Some. tauto.
    + rewrite Hlog. by apply dispatched_snoc_other.
    + rewrite Hlog. by apply enqueued_snoc_other.
  - rewrite (Run_unregister_absent c0 st Hl) in Hrun. injection Hrun as <-.
    by apply stepped_same.
Qed.

Lemma step_stepped ev c st st' :
  sound st → is_Some (heap st !! c) → step ev st = Ok st' →
  ∃ D, stepped c st st' D.
Proof.
  intros S Hc Hstep. pose proof (snd_coherent _ S) as C.
  destruct ev as [|c0 r|c0 k|b|pref g]; simpl in Hstep.
  - destruct (ServeWs_sound st S) as (st1 & Hrun & _ & Hfresh & _ & Hcl & Hh & Hlog).
    assert (st1 = st') as -> by congruence.
    assert (fresh (dom (heap st)) ≠ c) as Hne.
    { intros <-. rewrite Hfresh in Hc. by destruct Hc. }
    exists []. apply stepped_same; try done.
    + intros _. by rewrite Hh, lookup_insert_ne.
    + by rewrite !live_lookup, Hcl, lookup_insert_ne.
    + by rewrite Hlog.
    + by rewrite Hlog.
  - exists []. unfold readPump_iter in Hstep.
    destruct (heap st !! c0) as [cs0|]; [|injection Hstep as <-; by apply stepped_same].
    destruct (rp_done cs0); [injection Hstep as <-; by apply stepped_same|].
    destruct r as [mt message|].
    + destruct (submit message st) as [r|] eqn:Hsub;
        [|injection Hstep as <-; by apply stepped_same].
      subst r. by apply (submit_stepped message).
    + destruct (Run_step (OnUnregister c0) st) as [st1|] eqn:Hrun; [|done].
      simpl in Hstep. injection Hstep as <-.
      destruct (unregister_stepped c0 c st st1 S Hc Hrun) as [H1 H2 H3 H4].
      split; simpl; try done.
      rewrite lookup_alter. destruct (decide (c0 = c)) as [->|]; [|done].
      by apply fmap_is_Some.
  - exists []. injection Hstep as <-. apply stepped_same; simpl; try done.
    intros _. rewrite lookup_alter. destruct (decide (c0 = c)) as [->|]; [|done].
    by apply fmap_is_Some.
  - exists []. unfold Broadcast in Hstep. destruct (submit b st) as [r|] eqn:Hsub;
      [|injection Hstep as <-; by apply stepped_same].
    subst r. by apply (submit_stepped b).
  - unfold Chan.recv_nb in Hstep.
    destruct (Chan.buf (broadcast (hub st))) as [|msg rest] eqn:Hbuf.
    { exists []. rewrite (snd_open _ S) in Hstep. injection Hstep as <-. by apply stepped_same. }
    set (st0 := {| hub := set_broadcast (Chan.with_buf rest (broadcast (hub st))) (hub st);
                   heap := heap st; log := log st |}) in *.
    assert (coherent st0) as C0 by (by apply (coherent_ext st)).
    destruct (Run_broadcasted msg pref g st0 C0) as (st1 & Hrun & B).
    assert (Ok st1 = Ok st') as [= ->] by (rewrite <- Hrun; exact Hstep).
    exists [msg]. split.
    + apply elem_of_dom. rewrite (bc_dom _ _ _ _ B). by apply elem_of_dom.
    + intros Hl'. destruct (decide (live st c)) as [Hl|Hl]; [done|].
      destruct (bc_idle _ _ _ _ B c Hl) as (Hcl & _).
      apply live_lookup in Hl'. rewrite Hcl in Hl'. by apply live_lookup in Hl'.
    + apply (bc_disp _ _ _ _ B).
    + intros Hl'. destruct (decide (live st c)) as [Hl|Hl].
      * destruct (bc_live _ _ _ _ B c Hl) as (cs & cs1 & keep & seen & _ & _ & _ & _ & _ & Hk & He & _).
        unfold live in Hl'. rewrite Hk in Hl'. by subst keep.
      * destruct (bc_idle _ _ _ _ B c Hl) as (Hcl & _).
        apply live_lookup in Hl'. rewrite Hcl in Hl'. by apply live_lookup in Hl'.
Qed.

Lemma exec_stepped evs c st st' :
  sound st → is_Some (heap st !! c) → exec evs st = Ok st' →
  ∃ D, stepped c st st' D.
Proof.
  revert st. induction evs as [|ev evs IH]; intros st S Hc Hexec; simpl in Hexec.
  { injection Hexec as <-. exists []. by apply stepped_same. }
  destruct (step_sound ev st S) as (st1 & Hstep & S1).
  rewrite Hstep in Hexec. simpl in Hexec.
  destruct (step_stepped ev c st st1 S Hc Hstep) as (D1 & [H1 H2 H3 H4]).
  destruct (IH st1 S1 H1 Hexec) as (D2 & [G1 G2 G3 G4]).
  exists (D1 ++ D2). split; try done.
  - auto.
  - by rewrite G3, H3, app_assoc.
  - intros Hl. rewrite G4, H4, app_assoc; auto.
Qed.

(** C3. Payloads leave [h.broadcast] in the order in which they were
    submitted, and over any stretch of the run of the program the payloads
    dispatched in it ([D]) are enqueued, in that order, on every client
    that is in [h.clients] at both ends of the stretch.  What the peer is
    sent (the text frames written, then the queue) is the sequence of the
    enqueues, less the payloads that [Run] took back or that a failing
    write lost. *)
Theorem broadcast_order_preserved o evs1 evs2 c :
  ∃ st1 st2,
    exec evs1 (boot o) = Ok st1 ∧ exec evs2 st1 = Ok st2 ∧
    submitted (log st2) = dispatched (log st2) ++ Chan.buf (broadcast (hub st2)) ∧
    (live st1 c → live st2 c →
       ∃ D, dispatched (log st2) = dispatched (log st1) ++ D ∧
            enqueued c (log st2) = enqueued c (log st1) ++ D) ∧
    enqueued c (log st2) `sublist_of` dispatched (log st2) ∧
    (∀ cs, heap st2 !! c = Some cs →
       texts (conn_out cs) ++ Chan.buf (send cs) `sublist_of` enqueued c (log st2)).
Proof.
  destruct (exec_sound evs1 (boot o) (boot_sound o)) as (st1 & H1 & S1).
  destruct (exec_sound evs2 st1 S1) as (st2 & H2 & S2).
  exists st1, st2. split; [done|]. split; [done|].
  split; [apply (snd_fifo _ S2)|]. split; [|split].
  - intros Hl1 Hl2.
    destruct (coh_live _ (snd_coherent _ S1) c Hl1) as (cs & Hcs & _).
    destruct (exec_stepped evs2 c st1 st2 S1) as (D & [_ _ G3 G4]); [by rewrite Hcs|done|].
    exists D. auto.
  - apply (snd_order _ S2).
  - intros cs Hcs. apply (snd_pending _ S2 c cs Hcs).
Qed.

(** ** From one peer to the others *)

Lemma offer_room c msg g cs :
  Chan.closed (send cs) = false →
  (length (Chan.buf (send cs)) < Chan.cap (send cs))%nat →
  offer c msg g cs
  = Ok (set_send (Chan.with_buf (Chan.buf (send cs) ++ [msg]) (send cs)) cs,
        true, [Enqueued c msg]).
Proof.
  intros Hopen Hlt. rewrite offer_unfold.
  destruct (send_nb_open msg (send cs) Hopen) as [[_ ->]|[Hge _]]; [done|lia].
Qed.

(** A payload read by a client while [h.broadcast] is empty, then
    dispatched. *)
Lemma read_then_dispatch c cs mt message pref g st :
  sound st → heap st !! c = Some cs → rp_done cs = false →
  Chan.buf (broadcast (hub st)) = [] →
  ∃ st0 st',
    step (EvRead c (ReadOk mt message)) st = Ok st0 ∧
    step (EvDispatch pref g) st0 = Ok st' ∧
    sound st' ∧ (∀ c', live st0 c' ↔ live st c') ∧ heap st0 = heap st ∧
    (∀ c', enqueued c' (log st0) = enqueued c' (log st)) ∧
    broadcasted message g
      {| hub := set_broadcast (Chan.with_buf [] (broadcast (hub st0))) (hub st0);
         heap := heap st0; log := log st0 |} st'.
Proof.
  intros S Hcs Hrp Hempty.
  destruct (submit_sound message st S) as [[_ Hfull]|(st0 & Hsub & S0 & Hcl & Hh & Hbuf & Hlog)].
  { rewrite Hempty, (snd_bcap _ S) in Hfull. simpl in Hfull. lia. }
  exists st0.
  assert (step (EvRead c (ReadOk mt message)) st = Ok st0) as Hread.
  { simpl. unfold readPump_iter. by rewrite Hcs, Hrp, Hsub. }
  rewrite Hempty in Hbuf. simpl in Hbuf.
  destruct (dispatch_sound pref g st0 S0) as (st' & Hdisp & S').
  exists st'. split; [done|]. split; [done|]. split; [done|].
  split; [intros c'; by rewrite !live_lookup, Hcl|]. split; [done|].
  split; [intros c'; rewrite Hlog; by apply enqueued_snoc_other|].
  simpl in Hdisp. unfold Chan.recv_nb in Hdisp. rewrite Hbuf in Hdisp.
  set (st1 := {| hub := set_broadcast (Chan.with_buf [] (broadcast (hub st0))) (hub st0);
                 heap := heap st0; log := log st0 |}) in *.
  assert (coherent st1) as C1 by (by apply (coherent_ext st0); [| |done|apply (snd_coherent _ S0)]).
  destruct (Run_broadcasted message pref g st1 C1) as (st2 & Hrun & B).
  by assert (Ok st2 = Ok st') as [= ->] by (rewrite <- Hrun; exact Hdisp).
Qed.

Lemma exec_step ev evs st st1 :
  step ev st = Ok st1 → exec (ev :: evs) st = exec evs st1.
Proof. intros H. simpl. by rewrite H. Qed.

Lemma sound_cap_pos st c cs :
  sound st → heap st !! c = Some cs → (1 ≤ Chan.cap (send cs))%nat.
Proof.
  intros S Hcs. rewrite (snd_caps _ S c cs Hcs). pose proof (snd_cap_pos _ S). lia.
Qed.

(** With queues of at least one payload the third step of the policy is
    never reached: a fan-out of the program removes no client. *)
Lemma dispatch_evicts_nobody pref g st st' c :
  sound st → step (EvDispatch pref g) st = Ok st' → (live st' c ↔ live st c).
Proof.
  intros S Hstep. simpl in Hstep. unfold Chan.recv_nb in Hstep.
  destruct (Chan.buf (broadcast (hub st))) as [|msg rest] eqn:Hbuf.
  { rewrite (snd_open _ S) in Hstep. by injection Hstep as <-. }
  set (st0 := {| hub := set_broadcast (Chan.with_buf rest (broadcast (hub st))) (hub st);
                 heap := heap st; log := log st |}) in *.
  assert (coherent st0) as C0 by (by apply (coherent_ext st); [| |done|apply (snd_coherent _ S)]).
  destruct (Run_broadcasted msg pref g st0 C0) as (st1 & Hrun & B).
  assert (Ok st1 = Ok st') as [= ->] by (rewrite <- Hrun; exact Hstep).
  destruct (decide (live st c)) as [Hl|Hl].
  - destruct (bc_live _ _ _ _ B c Hl) as (cs & cs' & keep & seen & Hcs & _ & _ & Hoff & _ & Hk & _).
    simpl in Hcs. unfold live at 1. rewrite Hk.
    rewrite (off_keep _ _ _ _ _ _ Hoff); [done| |].
    + by apply (coh_bound _ (snd_coherent _ S) c).
    + by apply (sound_cap_pos st c).
  - destruct (bc_idle _ _ _ _ B c Hl) as (Hcl & _).
    rewrite !live_lookup. by rewrite Hcl.
Qed.

(** C10. The fan-out does not leave the sender out: a payload that the
    read pump of [c] forwards is, when [Run] dispatches it, enqueued on
    every client in [h.clients], [c] among them if it is still there. *)
Theorem fanout_includes_sender c cs mt message pref g st :
  sound st → heap st !! c = Some cs → rp_done cs = false → live st c →
  Chan.buf (broadcast (hub st)) = [] →
  ∃ st',
    exec [EvRead c (ReadOk mt message); EvDispatch pref g] st = Ok st' ∧
    (∀ c', live st c' →
       live st' c' ∧
       enqueued c' (log st') = enqueued c' (log st) ++ [message] ∧
       ∃ cs', heap st' !! c' = Some cs' ∧ last (Chan.buf (send cs')) = Some message) ∧
    live st' c ∧ enqueued c (log st') = enqueued c (log st) ++ [message].
Proof.
  intros S Hcs Hrp Hl Hempty.
  destruct (read_then_dispatch c cs mt message pref g st S Hcs Hrp Hempty)
    as (st0 & st' & Hread & Hdisp & S' & Hlive & Hh & He & B).
  exists st'. split; [by rewrite (exec_step _ _ _ _ Hread), (exec_step _ _ _ _ Hdisp)|].
  assert (∀ c', live st c' →
       live st' c' ∧
       enqueued c' (log st') = enqueued c' (log st) ++ [message] ∧
       ∃ cs', heap st' !! c' = Some cs' ∧ last (Chan.buf (send cs')) = Some message) as Hall.
  { intros c' Hl'.
    destruct (bc_live _ _ _ _ B c') as (cs0 & cs' & keep & seen & Hcs0 & _ & _ & Hoff & Hcs' & Hk & Henq & _).
    { by apply Hlive. }
    simpl in Hcs0, Henq. rewrite Hh in Hcs0.
    assert (keep = true) as ->.
    { apply (off_keep _ _ _ _ _ _ Hoff).
      - by apply (coh_bound _ (snd_coherent _ S) c').
      - by apply (sound_cap_pos st c'). }
    split; [done|]. split; [by rewrite Henq, He|].
    exists cs'. split; [done|]. by apply (off_last _ _ _ _ _ _ Hoff). }
  split; [done|]. destruct (Hall c Hl) as (? & ? & _). done.
Qed.

(** C9. Whatever the type of the frame a payload came in, it leaves as a
    text frame: [readPump] drops the type, and [writePump] writes every
    payload it takes from the queue as a [TextMessage].  A message of any
    type [mt] read from one client [c1] reaches a client [c2] that had
    nothing queued as one text frame with the same bytes; and in every
    state of the program the frames written to any peer are text frames
    and empty close and ping frames. *)
Theorem relayed_as_text :
  (∀ st c1 c2 cs1 cs2 mt message pref g,
     sound st → heap st !! c1 = Some cs1 → rp_done cs1 = false →
     Chan.buf (broadcast (hub st)) = [] →
     live st c2 → heap st !! c2 = Some cs2 →
     Chan.buf (send cs2) = [] → wp_done cs2 = false →
     ∃ st' cs2',
       exec [EvRead c1 (ReadOk mt message); EvDispatch pref g;
             EvPump c2 (FromQueue false)] st = Ok st' ∧
       heap st' !! c2 = Some cs2' ∧
       conn_out cs2' = conn_out cs2 ++ [(TextMessage, message)]) ∧
  (∀ o evs, ∃ st,
     exec evs (boot o) = Ok st ∧
     ∀ c cs, heap st !! c = Some cs →
       Forall (fun f : frame => f.1 = TextMessage ∨ f = (CloseMessage, []) ∨
                                f = (PingMessage, [])) (conn_out cs)).
Proof.
  split.
  - intros st c1 c2 cs1 cs2 mt message pref g S Hcs1 Hrp Hempty Hl2 Hcs2 Hq Hwp.
    destruct (read_then_dispatch c1 cs1 mt message pref g st S Hcs1 Hrp Hempty)
      as (st0 & st' & Hread & Hdisp & S' & Hlive & Hh & He & B).
    destruct (bc_live _ _ _ _ B c2) as (cs0 & cs' & keep & seen & Hcs0 & Hopen & Hoffer & _ & Hcs' & _).
    { by apply Hlive. }
    simpl in Hcs0. rewrite Hh in Hcs0. assert (cs0 = cs2) as -> by congruence.
    rewrite offer_room in Hoffer; [|done|].
    2:{ rewrite Hq. simpl. by apply (sound_cap_pos st c2). }
    injection Hoffer as <- _ _.
    eexists _, _.
    split; [rewrite (exec_step _ _ _ _ Hread), (exec_step _ _ _ _ Hdisp); reflexivity|].
    simpl. rewrite lookup_alter_eq, Hcs'. simpl. split; [done|].
    unfold writePump_iter. simpl. rewrite Hwp, Hq. done.
  - intros o evs. destruct (exec_sound evs (boot o) (boot_sound o)) as (st & Hexec & S).
    exists st. split; [done|]. apply (snd_wire _ S).
Qed.

(** ** Binding the body *)

Lemma decode_lacks members d : lacks_message members → foldl decode_member d members = d.
Proof.
  intros H. revert d. induction H as [|kv members Hkv _ IH]; intros d; simpl; [done|].
  rewrite IH. unfold decode_member. by rewrite Hkv.
Qed.

Lemma names_message_message : names_message "message" = true.
Proof. reflexivity. Qed.

Lemma decode_message pre post s d :
  lacks_message post →
  foldl decode_member d (pre ++ ("message", JString s) :: post)
  = ({| Message := s |}, (foldl decode_member d pre).2).
Proof.
  intros Hpost. rewrite foldl_app. cbn [foldl]. rewrite decode_lacks by done.
  unfold decode_member. cbn [fst snd]. by rewrite names_message_message.
Qed.

Lemma envelope_fields message time :
  dom (envelope message time) = {["type"; "message"; "time"]} ∧
  envelope message time !! "type" = Some (JString "server_broadcast") ∧
  envelope message time !! "message" = Some (JString message) ∧
  envelope message time !! "time" = Some (JString time).
Proof.
  unfold envelope. split; [|split; [|split]].
  - rewrite !dom_insert_L, dom_empty_L. set_solver.
  - by rewrite lookup_insert_eq.
  - rewrite lookup_insert_ne by done. by rewrite lookup_insert_eq.
  - rewrite !lookup_insert_ne by done. by rewrite lookup_insert_eq.
Qed.

(** C6, as the code has it.  For a body that is an object whose one member
    for [message] is a string that is not empty, the handler passes to
    [h.Broadcast] the serialization of the object with the three fields
    [type] (the string server_broadcast), [message] and [time] (the time
    of the call in RFC 3339) and no other, and answers 200; for an object
    with no member for [message] it answers 400 and calls [h.Broadcast]
    not at all. *)
Theorem broadcastAPI_envelope
    (Marshal : gmap string json → payload) (FormatRFC3339 : Z → string) (now : Z) :
  (∀ pre post m, m ≠ "" → lacks_message pre → lacks_message post →
     broadcastAPI Marshal FormatRFC3339 now
       (Body (JObject (pre ++ ("message", JString m) :: post)))
     = ({| status := StatusOK; answer := <["ok" := JBool true]> ∅ |},
        [Marshal (envelope m (FormatRFC3339 now))]) ∧
     dom (envelope m (FormatRFC3339 now)) = {["type"; "message"; "time"]} ∧
     envelope m (FormatRFC3339 now) !! "type" = Some (JString "server_broadcast") ∧
     envelope m (FormatRFC3339 now) !! "message" = Some (JString m) ∧
     envelope m (FormatRFC3339 now) !! "time" = Some (JString (FormatRFC3339 now))) ∧
  (∀ members, lacks_message members →
     broadcastAPI Marshal FormatRFC3339 now (Body (JObject members))
     = ({| status := StatusBadRequest;
           answer := <["error" := JString "message is required"]> ∅ |}, [])).
Proof.
  split.
  - intros pre post m Hm Hpre Hpost. split; [|apply envelope_fields].
    unfold broadcastAPI, ShouldBindJSON, Unmarshal.
    rewrite decode_message by done. rewrite decode_lacks by done. simpl.
    destruct (String.eqb_spec m ""); [done|]. done.
  - intros members H. unfold broadcastAPI, ShouldBindJSON, Unmarshal.
    rewrite decode_lacks by done. done.
Qed.

(** C8. A body whose member [message] is the empty string is answered 400
    and nothing is passed to [h.Broadcast]: the tag [required] takes the
    empty string for a missing field.  Whenever the handler does call
    [h.Broadcast], the message it wraps is not empty. *)
Theorem empty_message_rejected
    (Marshal : gmap string json → payload) (FormatRFC3339 : Z → string) (now : Z) :
  broadcastAPI Marshal FormatRFC3339 now (Body (JObject [("message", JString "")]))
  = ({| status := StatusBadRequest;
        answer := <["error" := JString "message is required"]> ∅ |}, []) ∧
  (∀ pre post, lacks_message post →
     broadcastAPI Marshal FormatRFC3339 now
       (Body (JObject (pre ++ ("message", JString "") :: post)))
     = ({| status := StatusBadRequest;
           answer := <["error" := JString "message is required"]> ∅ |}, [])) ∧
  (∀ b, (broadcastAPI Marshal FormatRFC3339 now b).2 ≠ [] ∨
        status (broadcastAPI Marshal FormatRFC3339 now b).1 = StatusOK →
     ∃ m, m ≠ "" ∧
       broadcastAPI Marshal FormatRFC3339 now b
       = ({| status := StatusOK; answer := <["ok" := JBool true]> ∅ |},
          [Marshal (envelope m (FormatRFC3339 now))])).
Proof.
  split; [done|]. split.
  - intros pre post Hpost. unfold broadcastAPI, ShouldBindJSON, Unmarshal.
    rewrite decode_message by done. simpl.
    by destruct (foldl decode_member _ pre).2.
  - intros b Hb. unfold broadcastAPI in *.
    destruct (ShouldBindJSON b) as [req|] eqn:Hbind.
    + exists (Message req). split; [|done].
      unfold ShouldBindJSON in Hbind. destruct b as [|j]; [done|].
      destruct (Unmarshal j _) as [req' err]. destruct err; [done|].
      destruct (String.eqb_spec (Message req') ""); [done|]. congruence.
    + simpl in Hb. by destruct Hb.
Qed.

(** ** Configuration and timing *)

(** C5. A hub built from options with a field left at its zero value uses
    the default for it: 128 payloads for the queue of a client, 8192 bytes
    for a message, and an origin check that accepts every request; the
    queue that [ServeWs] gives a client then has capacity 128.  The same
    holds for all three when no options are passed. *)
Theorem NewHub_defaults (o : Options) :
  (SendCap o = 0 → SendCap (opts (NewHub (Some o))) = 128) ∧
  (MaxMessageSize o = 0 → MaxMessageSize (opts (NewHub (Some o))) = 8192) ∧
  (CheckOrigin o = None →
     ∃ f, CheckOrigin (opts (NewHub (Some o))) = Some f ∧ ∀ r, f r = true) ∧
  (SendCap o = 0 →
     ∃ st, ServeWs (boot (Some o)) = Ok st ∧
       ∀ c cs, heap st !! c = Some cs → Chan.cap (send cs) = 128%nat) ∧
  (SendCap (opts (NewHub None)) = 128 ∧
   MaxMessageSize (opts (NewHub None)) = 8192 ∧
   ∃ f, CheckOrigin (opts (NewHub None)) = Some f ∧ ∀ r, f r = true).
Proof.
  assert (SendCap o = 0 → SendCap (opts (NewHub (Some o))) = 128) as Hcap.
  { intros H. simpl. unfold withDefaults. rewrite H. simpl.
    destruct (MaxMessageSize o <=? 0); simpl; by destruct (CheckOrigin o). }
  split; [done|]. split; [|split; [|split]].
  - intros H. simpl. unfold withDefaults.
    destruct (SendCap o <=? 0); simpl; rewrite H; simpl; by destruct (CheckOrigin o).
  - intros H. simpl. unfold withDefaults.
    destruct (SendCap o <=? 0); simpl; destruct (MaxMessageSize o <=? 0); simpl;
      rewrite H; simpl; by eexists.
  - intros H. eexists. split; [reflexivity|].
    intros c cs. simpl. rewrite lookup_insert_Some, lookup_empty.
    intros [[_ <-]|[_ ?]]; [|done].
    change (Z.to_nat (SendCap (opts (NewHub (Some o)))) = 128%nat). by rewrite Hcap.
  - split; [done|]. split; [done|]. by eexists.
Qed.

(** C7. The ticker of [writePump] fires every [pingPeriod], which is nine
    tenths of [pongWait], the time [readPump] allows for a pong: with
    [pongWait] at 60 seconds, every 54 seconds. *)
Theorem pingPeriod_nine_tenths :
  ticker_period = pingPeriod ∧
  (∀ now, read_deadline now - now = pongWait) ∧
  pingPeriod * 10 = pongWait * 9 ∧
  pongWait = 60 * Second ∧
  pingPeriod = 54 * Second.
Proof.
  split; [done|]. split; [|done]. intros now. unfold read_deadline. lia.
Qed.

(** ** Runs of the program on small inputs *)

Lemma run_from_sound evs st : sound st → sound (run_from evs st).
Proof.
  intros S. unfold run_from. destruct (exec_sound evs st S) as (st' & -> & S'). done.
Qed.

Lemma run_from_exec evs st : sound st → exec evs st = Ok (run_from evs st).
Proof.
  intros S. unfold run_from. destruct (exec_sound evs st S) as (st' & -> & S'). done.
Qed.

Lemma one_client_sound : sound one_client.
Proof. apply run_from_sound, boot_sound. Qed.

Lemma one_client_full_sound : sound one_client_full.
Proof. apply run_from_sound, one_client_sound. Qed.

Lemma two_clients_sound : sound two_clients.
Proof. apply run_from_sound, boot_sound. Qed.

Lemma before_register_coherent : coherent before_register.
Proof.
  split; simpl.
  - intros c b. by rewrite lookup_empty.
  - intros c Hl. apply live_lookup in Hl. simpl in Hl. by rewrite lookup_empty in Hl.
  - intros c cs. rewrite lookup_singleton_Some. intros [_ <-]. simpl. lia.
  - intros c. unfold closed_count. simpl.
    destruct (decide (c = 0%nat)) as [->|Hne].
    + by rewrite lookup_singleton_eq.
    + by rewrite lookup_singleton_ne.
Qed.

(** The third step of the policy is reached by an unbuffered queue with
    nobody receiving: nothing to take away, the second send fails as the
    first, and the queue is closed. *)
Example unbuffered_evicted :
  offer 0%nat msg_a ([], []) unbuffered
  = Ok (set_send (Chan.Make 0 [] true) unbuffered, false, [Closed 0%nat]).
Proof. reflexivity. Qed.

(** The same in [Run]: the client is deleted from [h.clients] in the
    iteration that closes its queue. *)
Example unbuffered_client_removed :
  ∃ st', Run_step (OnBroadcast msg_a [] still) unbuffered_registered = Ok st' ∧
    is_client (hub st') 0%nat = false ∧
    send <$> heap st' !! 0%nat = Some (Chan.Make 0 [] true) ∧
    log st' = [Dispatched msg_a; Closed 0%nat].
Proof. eexists. split; [vm_compute; reflexivity|]. vm_compute. done. Qed.

(** The second step is skipped when the write pump has emptied the queue
    in the meantime: nothing is taken away and the retry succeeds. *)
Example dequeue_skipped :
  ∃ st', Run_step (OnBroadcast msg_b [] pump_first) one_client_full = Ok st' ∧
    heap st' !! 0%nat
    = Some {| send := Chan.Make 1 [msg_b] false; conn_out := [(TextMessage, msg_a)];
              rp_done := false; wp_done := false |} ∧
    log st' = log one_client_full ++ [Dispatched msg_b; Enqueued 0%nat msg_b].
Proof. eexists. split; [vm_compute; reflexivity|]. vm_compute. done. Qed.

(** A client handed to [Run] a second time, after its queue was closed,
    makes the next [OnUnregister] panic: this is what the hypothesis on
    [registrations] keeps out. *)
Example registered_twice_panics :
  Run [OnRegister 0%nat; OnUnregister 0%nat; OnRegister 0%nat; OnUnregister 0%nat] before_register
  = Panic CloseOfClosedChannel.
Proof. vm_compute. reflexivity. Qed.

(** The policy at work on the client of [one_client_full], whose queue of
    one payload is full when [msg_b] is dispatched. *)
Lemma Run_broadcast_three_steps_witness :
  coherent one_client_full ∧ live one_client_full 0%nat ∧
  ∃ st' cs cs' k1 k2,
    Run_step (OnBroadcast msg_b [] still) one_client_full = Ok st' ∧
    heap one_client_full !! 0%nat = Some cs ∧ heap st' !! 0%nat = Some cs' ∧
    (still 0%nat = ([], []) → k1 = 0%nat ∧ k2 = 0%nat) ∧
    match backpressure_policy (Chan.cap (send cs)) msg_b (Chan.buf (send cs)) k1 k2 with
    | Some q =>
        Chan.buf (send cs') = q ∧ Chan.closed (send cs') = false ∧ live st' 0%nat ∧
        enqueued 0%nat (log st') = enqueued 0%nat (log one_client_full) ++ [msg_b] ∧
        closes 0%nat (log st') = closes 0%nat (log one_client_full)
    | None =>
        Chan.closed (send cs') = true ∧ ¬ live st' 0%nat ∧
        enqueued 0%nat (log st') = enqueued 0%nat (log one_client_full) ∧
        closes 0%nat (log st') = S (closes 0%nat (log one_client_full))
    end.
Proof.
  assert (coherent one_client_full) as C by apply (snd_coherent _ one_client_full_sound).
  assert (live one_client_full 0%nat) as L by (vm_compute; reflexivity).
  split; [exact C|]. split; [exact L|].
  exact (Run_broadcast_three_steps msg_b [] still one_client_full 0%nat C L).
Defined.

(** Against the eviction that the specification expects: a client with a
    queue of one payload whose write pump never moves is sent three
    payloads, more than the capacity plus one.  It is still in
    [h.clients], its queue was never closed, and the queue holds the last
    payload. *)
Lemma paused_client_not_evicted :
  exec overflow (boot (Some one_slot)) = Ok (run_from overflow (boot (Some one_slot))) ∧
  live (run_from overflow (boot (Some one_slot))) 0%nat ∧
  closes 0%nat (log (run_from overflow (boot (Some one_slot)))) = 0%nat ∧
  send <$> heap (run_from overflow (boot (Some one_slot))) !! 0%nat
  = Some (Chan.Make 1 [msg_c] false) ∧
  dispatched (log (run_from overflow (boot (Some one_slot)))) = [msg_a; msg_b; msg_c].
Proof.
  split; [apply run_from_exec, boot_sound|].
  vm_compute. repeat split; reflexivity.
Qed.

(** Three payloads sent to the client of [one_client] while its write
    pump stands still. *)
Lemma paused_client_keeps_latest_witness :
  coherent one_client ∧ live one_client 0%nat ∧
  heap one_client !! 0%nat
  = Some {| send := Chan.make 1; conn_out := []; rp_done := false; wp_done := false |} ∧
  stands_still 0%nat [(msg_a, [], still); (msg_b, [], still); (msg_c, [], still)] ∧
  ∃ st' cs',
    Run (broadcasts [(msg_a, [], still); (msg_b, [], still); (msg_c, [], still)]) one_client
    = Ok st' ∧
    live st' 0%nat ∧ heap st' !! 0%nat = Some cs' ∧
    Chan.cap (send cs') = 1%nat ∧ Chan.closed (send cs') = false ∧
    Chan.buf (send cs') = [msg_c] ∧ closes 0%nat (log st') = 0%nat.
Proof.
  assert (coherent one_client) as C by apply (snd_coherent _ one_client_sound).
  assert (live one_client 0%nat) as L by (vm_compute; reflexivity).
  assert (heap one_client !! 0%nat
          = Some {| send := Chan.make 1; conn_out := []; rp_done := false; wp_done := false |})
    as H by (vm_compute; reflexivity).
  assert (stands_still 0%nat [(msg_a, [], still); (msg_b, [], still); (msg_c, [], still)])
    as S by (repeat constructor).
  split; [exact C|]. split; [exact L|]. split; [exact H|]. split; [exact S|].
  exact (paused_client_keeps_latest 0%nat _ one_client _ C L H (le_n 1) S).
Defined.

(** Two payloads submitted and then dispatched after the client of
    [one_client] registered. *)
Lemma broadcast_order_preserved_witness :
  live one_client 0%nat ∧
  live (run_from [EvBroadcast msg_a; EvBroadcast msg_b;
                  EvDispatch [] still; EvDispatch [] still] one_client) 0%nat ∧
  ∃ D,
    dispatched (log (run_from [EvBroadcast msg_a; EvBroadcast msg_b;
                               EvDispatch [] still; EvDispatch [] still] one_client))
    = dispatched (log one_client) ++ D ∧
    enqueued 0%nat (log (run_from [EvBroadcast msg_a; EvBroadcast msg_b;
                                   EvDispatch [] still; EvDispatch [] still] one_client))
    = enqueued 0%nat (log one_client) ++ D.
Proof.
  split; [vm_compute; reflexivity|]. split; [vm_compute; reflexivity|].
  destruct (broadcast_order_preserved (Some one_slot) [EvServeWs]
              [EvBroadcast msg_a; EvBroadcast msg_b; EvDispatch [] still; EvDispatch [] still]
              0%nat) as (st1 & st2 & H1 & H2 & _ & Hlive & _).
  assert (st1 = one_client) as ->.
  { unfold one_client, run_from. by rewrite H1. }
  assert (st2 = run_from [EvBroadcast msg_a; EvBroadcast msg_b;
                          EvDispatch [] still; EvDispatch [] still] one_client) as ->.
  { unfold run_from at 1. by rewrite H2. }
  apply Hlive; vm_compute; reflexivity.
Defined.

(** Unregistering the client of [one_client], a client that never was,
    and a client registered once and unregistered twice. *)
Lemma Unregister_idempotent_witness :
  (coherent one_client ∧ live one_client 0%nat ∧
   ∃ st' cs', Run_step (OnUnregister 0%nat) one_client = Ok st' ∧ ¬ live st' 0%nat ∧
     heap st' !! 0%nat = Some cs' ∧ Chan.closed (send cs') = true ∧
     closes 0%nat (log one_client) = 0%nat ∧ closes 0%nat (log st') = 1%nat ∧
     Run_step (OnUnregister 0%nat) st' = Ok st') ∧
  (¬ live one_client 5%nat ∧ Run_step (OnUnregister 5%nat) one_client = Ok one_client) ∧
  (coherent before_register ∧
   NoDup (registrations [OnRegister 0%nat; OnUnregister 0%nat; OnUnregister 0%nat]) ∧
   ∃ st', Run [OnRegister 0%nat; OnUnregister 0%nat; OnUnregister 0%nat] before_register = Ok st' ∧
          ∀ c, (closes c (log st') ≤ 1)%nat).
Proof.
  destruct Unregister_idempotent as (Hin & Hout & Hrun & _).
  assert (coherent one_client) as C by apply (snd_coherent _ one_client_sound).
  assert (live one_client 0%nat) as L by (vm_compute; reflexivity).
  assert (¬ live one_client 5%nat) as L5 by (vm_compute; discriminate).
  assert (NoDup (registrations [OnRegister 0%nat; OnUnregister 0%nat; OnUnregister 0%nat])) as N.
  { simpl. apply NoDup_singleton. }
  split; [|split].
  - split; [exact C|]. split; [exact L|]. exact (Hin one_client 0%nat C L).
  - split; [exact L5|]. exact (Hout one_client 5%nat L5).
  - split; [exact before_register_coherent|]. split; [exact N|].
    apply (Hrun _ before_register before_register_coherent N).
    intros c Hc. simpl in Hc. apply list_elem_of_singleton in Hc as ->.
    split; [vm_compute; discriminate|].
    exists newcomer. split; [vm_compute; reflexivity|reflexivity].
Defined.

(** The defaults for the zero options and for the options of [main],
    which leave [CheckOrigin] unset. *)
Lemma NewHub_defaults_witness :
  SendCap (opts (NewHub (Some zero_Options))) = 128 ∧
  MaxMessageSize (opts (NewHub (Some zero_Options))) = 8192 ∧
  (∃ f, CheckOrigin (opts (NewHub (Some main_options))) = Some f ∧ ∀ r, f r = true) ∧
  (∃ st, ServeWs (boot (Some zero_Options)) = Ok st ∧
     ∀ c cs, heap st !! c = Some cs → Chan.cap (send cs) = 128%nat).
Proof.
  destruct (NewHub_defaults zero_Options) as (H1 & H2 & _ & H4 & _).
  destruct (NewHub_defaults main_options) as (_ & _ & H3 & _).
  split; [exact (H1 eq_refl)|]. split; [exact (H2 eq_refl)|].
  split; [exact (H3 eq_refl)|exact (H4 eq_refl)].
Defined.

(** What the only client of [one_client] sends comes back to it. *)
Lemma fanout_includes_sender_witness :
  sound one_client ∧ live one_client 0%nat ∧
  ∃ st',
    exec [EvRead 0%nat (ReadOk TextMessage msg_a); EvDispatch [] still] one_client = Ok st' ∧
    (∀ c', live one_client c' →
       live st' c' ∧
       enqueued c' (log st') = enqueued c' (log one_client) ++ [msg_a] ∧
       ∃ cs', heap st' !! c' = Some cs' ∧ last (Chan.buf (send cs')) = Some msg_a) ∧
    live st' 0%nat ∧ enqueued 0%nat (log st') = enqueued 0%nat (log one_client) ++ [msg_a].
Proof.
  assert (live one_client 0%nat) as L by (vm_compute; reflexivity).
  split; [exact one_client_sound|]. split; [exact L|].
  apply (fanout_includes_sender 0%nat
           {| send := Chan.make 1; conn_out := []; rp_done := false; wp_done := false |}
           TextMessage msg_a [] still one_client one_client_sound).
  - vm_compute; reflexivity.
  - reflexivity.
  - exact L.
  - vm_compute; reflexivity.
Defined.

(** A binary frame read from the first of [two_clients] is written to the
    second as a text frame. *)
Lemma relayed_as_text_witness :
  sound two_clients ∧ live two_clients 1%nat ∧
  ∃ st' cs2',
    exec [EvRead 0%nat (ReadOk BinaryMessage msg_a); EvDispatch [] still;
          EvPump 1%nat (FromQueue false)] two_clients = Ok st' ∧
    heap st' !! 1%nat = Some cs2' ∧
    conn_out cs2' = [] ++ [(TextMessage, msg_a)].
Proof.
  destruct relayed_as_text as [Hrelay _].
  assert (live two_clients 1%nat) as L by (vm_compute; reflexivity).
  split; [exact two_clients_sound|]. split; [exact L|].
  apply (Hrelay two_clients 0%nat 1%nat
           {| send := Chan.make 256; conn_out := []; rp_done := false; wp_done := false |}
           {| send := Chan.make 256; conn_out := []; rp_done := false; wp_done := false |}
           BinaryMessage msg_a [] still two_clients_sound).
  - vm_compute; reflexivity.
  - reflexivity.
  - vm_compute; reflexivity.
  - exact L.
  - vm_compute; reflexivity.
  - reflexivity.
  - reflexivity.
Defined.

(** A second member for the field, with a value that is no string, makes
    the decoding fail: the names of members are matched without regard to
    case. *)
Example second_member_refused :
  ShouldBindJSON (Body (JObject [("message", JString "hi"); ("Message", JNumber "5")])) = None.
Proof. reflexivity. Qed.

(** Against the acceptance that the specification expects: a body with
    the member [message] is not always accepted; the empty string is
    refused. *)
Lemma message_field_not_enough :
  ¬ (∀ (Marshal : gmap string json → payload) (FormatRFC3339 : Z → string)
       (now : Z) (m : string),
       status (broadcastAPI Marshal FormatRFC3339 now
                 (Body (JObject [("message", JString m)]))).1 = StatusOK).
Proof.
  intros H. specialize (H (fun _ => []) (fun _ => "") 0 ""). vm_compute in H. discriminate.
Qed.

(** The handler on a body with a message and another member, and on a
    body with that other member alone. *)
Lemma broadcastAPI_envelope_witness :
  "hi" ≠ "" ∧ lacks_message [] ∧ lacks_message [("id", JNumber "7")] ∧
  broadcastAPI (fun _ => msg_a) (fun _ => "2024-01-01T00:00:00Z") 0
    (Body (JObject ([] ++ ("message", JString "hi") :: [("id", JNumber "7")])))
  = ({| status := StatusOK; answer := <["ok" := JBool true]> ∅ |},
     [(fun _ : gmap string json => msg_a) (envelope "hi" "2024-01-01T00:00:00Z")]) ∧
  broadcastAPI (fun _ => msg_a) (fun _ => "2024-01-01T00:00:00Z") 0
    (Body (JObject [("id", JNumber "7")]))
  = ({| status := StatusBadRequest;
        answer := <["error" := JString "message is required"]> ∅ |}, []).
Proof.
  destruct (broadcastAPI_envelope (fun _ => msg_a) (fun _ => "2024-01-01T00:00:00Z") 0)
    as [Hyes Hno].
  assert ("hi" ≠ "") as Hm by discriminate.
  assert (lacks_message []) as H0 by constructor.
  assert (lacks_message [("id", JNumber "7")]) as H1 by (repeat constructor).
  split; [exact Hm|]. split; [exact H0|]. split; [exact H1|].
  split; [exact (proj1 (Hyes [] [("id", JNumber "7")] "hi" Hm H0 H1))|].
  exact (Hno [("id", JNumber "7")] H1).
Defined.

(** The handler on an empty message after a member that set one, and on a
    body that is accepted. *)
Lemma empty_message_rejected_witness :
  lacks_message [] ∧
  broadcastAPI (fun _ => msg_a) (fun _ => "2024-01-01T00:00:00Z") 0
    (Body (JObject ([("Message", JString "x")] ++ ("message", JString "") :: [])))
  = ({| status := StatusBadRequest;
        answer := <["error" := JString "message is required"]> ∅ |}, []) ∧
  ∃ m, m ≠ "" ∧
    broadcastAPI (fun _ => msg_a) (fun _ => "2024-01-01T00:00:00Z") 0
      (Body (JObject [("message", JString "hi")]))
    = ({| status := StatusOK; answer := <["ok" := JBool true]> ∅ |},
       [(fun _ : gmap string json => msg_a) (envelope m "2024-01-01T00:00:00Z")]).
Proof.
  destruct (empty_message_rejected (fun _ => msg_a) (fun _ => "2024-01-01T00:00:00Z") 0)
    as (_ & Hempty & Hacc).
  assert (lacks_message []) as H0 by constructor.
  split; [exact H0|]. split; [exact (Hempty [("Message", JString "x")] [] H0)|].
  apply (Hacc (Body (JObject [("message", JString "hi")]))).
  right. reflexivity.
Defined.

(** * Further properties *)

(** ** [withDefaults] *)

Lemma withDefaults_set (o : Options) :
  0 < SendCap (withDefaults o) ∧
  0 < MaxMessageSize (withDefaults o) ∧
  ∃ f, CheckOrigin (withDefaults o) = Some f.
Proof.
  unfold withDefaults.
  destruct (Z.leb_spec (SendCap o) 0); simpl;
    destruct (Z.leb_spec (MaxMessageSize o) 0); simpl;
    destruct (CheckOrigin o) eqn:E; simpl; rewrite ?E;
    (split; [lia|]; split; [lia|]; by eexists).
Qed.

(** X1. Whatever the options, after [withDefaults] the queue capacity and
    the message size are positive and the origin check is set; the
    compression flag is left as it was. *)
Theorem withDefaults_valid (o : Options) :
  0 < SendCap (withDefaults o) ∧
  0 < MaxMessageSize (withDefaults o) ∧
  (∃ f, CheckOrigin (withDefaults o) = Some f) ∧
  EnableCompression (withDefaults o) = EnableCompression o.
Proof.
  destruct (withDefaults_set o) as (H1 & H2 & H3).
  split; [done|]. split; [done|]. split; [done|].
  unfold withDefaults.
  destruct (SendCap o <=? 0); simpl; destruct (MaxMessageSize o <=? 0); simpl;
    destruct (CheckOrigin o) eqn:E; simpl; rewrite ?E; reflexivity.
Qed.

(** X2. [withDefaults] replaces a size that is zero or negative by its
    default, and keeps a positive size and an origin check that is set. *)
Theorem withDefaults_keeps_set (o : Options) :
  (SendCap o ≤ 0 → SendCap (withDefaults o) = 128) ∧
  (MaxMessageSize o ≤ 0 → MaxMessageSize (withDefaults o) = 8192) ∧
  (0 < SendCap o → SendCap (withDefaults o) = SendCap o) ∧
  (0 < MaxMessageSize o → MaxMessageSize (withDefaults o) = MaxMessageSize o) ∧
  (∀ f, CheckOrigin o = Some f → CheckOrigin (withDefaults o) = Some f).
Proof.
  unfold withDefaults.
  destruct (Z.leb_spec (SendCap o) 0); simpl;
    destruct (Z.leb_spec (MaxMessageSize o) 0); simpl;
    destruct (CheckOrigin o) eqn:E; simpl; rewrite ?E;
    (split; [intros; lia|]; split; [intros; lia|]; split; [intros; lia|];
     split; [intros; lia|]; intros; congruence).
Qed.

Lemma withDefaults_keeps_set_witness :
  SendCap (withDefaults negative_sizes) = 128 ∧
  MaxMessageSize (withDefaults negative_sizes) = 8192 ∧
  SendCap (withDefaults all_set) = 16 ∧
  MaxMessageSize (withDefaults all_set) = 512 ∧
  ∃ f, CheckOrigin (withDefaults all_set) = Some f ∧ f {| ReqHost := ""; ReqOrigin := "" |} = false.
Proof.
  destruct (withDefaults_keeps_set negative_sizes) as (H1 & H2 & _).
  destruct (withDefaults_keeps_set all_set) as (_ & _ & H3 & H4 & H5).
  split; [apply H1; simpl; lia|]. split; [apply H2; simpl; lia|].
  split; [apply H3; simpl; lia|]. split; [apply H4; simpl; lia|].
  eexists. split; [apply H5; reflexivity|reflexivity].
Defined.

(** X3. Applying [withDefaults] a second time changes nothing. *)
Theorem withDefaults_idempotent (o : Options) :
  withDefaults (withDefaults o) = withDefaults o.
Proof.
  destruct (withDefaults_set o) as (H1 & H2 & [f H3]).
  unfold withDefaults at 1.
  destruct (Z.leb_spec (SendCap (withDefaults o)) 0); [lia|].
  destruct (Z.leb_spec (MaxMessageSize (withDefaults o)) 0); [lia|].
  by rewrite H3.
Qed.

(** ** Registering *)

(** X4. Handing [Run] a client that is in [h.clients] already changes
    nothing, and handing it the same client twice in a row is as handing
    it once. *)
Theorem register_again_noop :
  (∀ st c, live st c → Run_step (OnRegister c) st = Ok st) ∧
  (∀ st c evs, Run (OnRegister c :: OnRegister c :: evs) st = Run (OnRegister c :: evs) st).
Proof.
  split.
  - intros [[cl bc op] hp lg] c Hl. apply live_lookup in Hl. simpl in *.
    unfold set_clients; simpl. by rewrite insert_id.
  - intros st c evs. simpl. unfold set_clients; simpl. by rewrite insert_insert_eq.
Qed.

Lemma register_again_noop_witness :
  live one_client 0%nat ∧ Run_step (OnRegister 0%nat) one_client = Ok one_client.
Proof.
  assert (live one_client 0%nat) as L by (vm_compute; reflexivity).
  split; [exact L|]. exact (proj1 register_again_noop one_client 0%nat L).
Defined.

(** ** The write pump on its own *)

Lemma writePump_run_cons k ks cs :
  writePump_run (k :: ks) cs = writePump_run ks (writePump_iter k cs).
Proof. reflexivity. Qed.

Lemma writePump_run_done ks cs : wp_done cs = true → writePump_run ks cs = cs.
Proof.
  intros Hd. induction ks as [|k ks IH]; [done|].
  rewrite writePump_run_cons. unfold writePump_iter. by rewrite Hd.
Qed.

Lemma writePump_iter_ok_pending k cs :
  match k with FromQueue werr | FromTicker werr => werr = false end →
  pending (writePump_iter k cs) = pending cs.
Proof.
  intros Hk. unfold writePump_iter. destruct (wp_done cs); [done|].
  destruct cs as [[n q cl] out rp wp]. destruct k as [werr|werr]; subst werr.
  - unfold Chan.recv_nb; simpl. destruct q as [|m q]; simpl.
    + destruct cl; [|done]. unfold pending; simpl. by rewrite texts_app, app_nil_r.
    + unfold pending; simpl. by rewrite texts_app, <- app_assoc.
  - unfold pending; simpl. by rewrite texts_app, app_nil_r.
Qed.

(** X5. As long as no write fails, the write pump loses and reorders
    nothing: the text frames written followed by the queue are the same
    sequence of payloads before and after any number of its iterations,
    pings and the closing of the queue included. *)
Theorem pump_loses_nothing ks cs :
  writes_ok ks →
  texts (conn_out (writePump_run ks cs)) ++ Chan.buf (send (writePump_run ks cs))
  = texts (conn_out cs) ++ Chan.buf (send cs).
Proof.
  intros Hok. revert cs. induction Hok as [|k ks Hk _ IH]; intros cs; [done|].
  rewrite writePump_run_cons, IH. apply (writePump_iter_ok_pending k cs Hk).
Qed.

Lemma pump_loses_nothing_witness :
  writes_ok [FromQueue false; FromTicker false; FromQueue false] ∧
  texts (conn_out (writePump_run [FromQueue false; FromTicker false; FromQueue false]
                     {| send := Chan.Make 4 [msg_a; msg_b; msg_c] false; conn_out := [];
                        rp_done := false; wp_done := false |}))
  ++ Chan.buf (send (writePump_run [FromQueue false; FromTicker false; FromQueue false]
                     {| send := Chan.Make 4 [msg_a; msg_b; msg_c] false; conn_out := [];
                        rp_done := false; wp_done := false |}))
  = [msg_a; msg_b; msg_c].
Proof.
  assert (writes_ok [FromQueue false; FromTicker false; FromQueue false]) as H
    by (repeat constructor).
  split; [exact H|].
  exact (pump_loses_nothing _
           {| send := Chan.Make 4 [msg_a; msg_b; msg_c] false; conn_out := [];
              rp_done := false; wp_done := false |} H).
Defined.

Lemma deliver_first n cs :
  wp_done cs = false → (n ≤ length (Chan.buf (send cs)))%nat →
  writePump_run (replicate n (FromQueue false)) cs
  = {| send := Chan.with_buf (drop n (Chan.buf (send cs))) (send cs);
       conn_out := conn_out cs ++ text_frames (take n (Chan.buf (send cs)));
       rp_done := rp_done cs; wp_done := false |}.
Proof.
  revert cs. induction n as [|n IH]; intros [[N q cl] out rp wp] Hwp Hn;
    simpl in Hwp, Hn; subst wp.
  { unfold writePump_run, Chan.with_buf, text_frames; simpl. by rewrite app_nil_r. }
  destruct q as [|m q]; simpl in Hn; [lia|].
  cbn [replicate]. rewrite writePump_run_cons.
  unfold writePump_iter, Chan.recv_nb; simpl.
  rewrite IH; [|done|simpl; lia]. simpl.
  unfold Chan.with_buf, text_frames; simpl. by rewrite <- app_assoc.
Qed.

(** X6. The write pump delivers in the order of the queue, one payload a
    frame: [n] iterations on the queue whose writes succeed write its
    first [n] payloads as text frames and leave the others.  A queue that
    was closed is still emptied: its payloads are written, then one close
    frame, and the pump returns. *)
Theorem queue_delivered_in_order cs :
  wp_done cs = false →
  (∀ n, (n ≤ length (Chan.buf (send cs)))%nat →
     conn_out (writePump_run (replicate n (FromQueue false)) cs)
     = conn_out cs ++ text_frames (take n (Chan.buf (send cs))) ∧
     Chan.buf (send (writePump_run (replicate n (FromQueue false)) cs))
     = drop n (Chan.buf (send cs)) ∧
     wp_done (writePump_run (replicate n (FromQueue false)) cs) = false) ∧
  (Chan.closed (send cs) = true →
     conn_out (writePump_run
                 (replicate (length (Chan.buf (send cs))) (FromQueue false)
                  ++ [FromQueue false]) cs)
     = conn_out cs ++ text_frames (Chan.buf (send cs)) ++ [(CloseMessage, [])] ∧
     wp_done (writePump_run
                (replicate (length (Chan.buf (send cs))) (FromQueue false)
                 ++ [FromQueue false]) cs) = true).
Proof.
  intros Hwp. split.
  - intros n Hn. by rewrite deliver_first.
  - intros Hcl. unfold writePump_run. rewrite foldl_app.
    fold (writePump_run (replicate (length (Chan.buf (send cs))) (FromQueue false)) cs).
    rewrite deliver_first by done. simpl.
    unfold writePump_iter, Chan.recv_nb; simpl.
    rewrite drop_all, firstn_all, Hcl. simpl. by rewrite <- app_assoc.
Qed.

Lemma queue_delivered_in_order_witness :
  conn_out (writePump_run (replicate 2 (FromQueue false))
              {| send := Chan.Make 4 [msg_a; msg_b; msg_c] true; conn_out := [];
                 rp_done := true; wp_done := false |})
  = [(TextMessage, msg_a); (TextMessage, msg_b)] ∧
  conn_out (writePump_run (replicate 3 (FromQueue false) ++ [FromQueue false])
              {| send := Chan.Make 4 [msg_a; msg_b; msg_c] true; conn_out := [];
                 rp_done := true; wp_done := false |})
  = [(TextMessage, msg_a); (TextMessage, msg_b); (TextMessage, msg_c); (CloseMessage, [])].
Proof.
  destruct (queue_delivered_in_order
              {| send := Chan.Make 4 [msg_a; msg_b; msg_c] true; conn_out := [];
                 rp_done := true; wp_done := false |} eq_refl) as [Hn Hc].
  split.
  - exact (proj1 (Hn 2%nat ltac:(simpl; lia))).
  - exact (proj1 (Hc eq_refl)).
Defined.

(** X7. A write that fails ends the write pump for good: the payload it
    had taken from the queue is written nowhere, and whatever the pump is
    scheduled to do afterwards, it writes no frame and takes no payload. *)
Theorem write_failure_ends_pump cs ks :
  wp_done cs = false →
  (∀ m rest, Chan.buf (send cs) = m :: rest →
     conn_out (writePump_run (FromQueue true :: ks) cs) = conn_out cs ∧
     Chan.buf (send (writePump_run (FromQueue true :: ks) cs)) = rest ∧
     wp_done (writePump_run (FromQueue true :: ks) cs) = true) ∧
  (conn_out (writePump_run (FromTicker true :: ks) cs) = conn_out cs ∧
   Chan.buf (send (writePump_run (FromTicker true :: ks) cs)) = Chan.buf (send cs) ∧
   wp_done (writePump_run (FromTicker true :: ks) cs) = true).
Proof.
  intros Hwp. split.
  - intros m rest Hq. rewrite writePump_run_cons.
    assert (writePump_iter (FromQueue true) cs
            = set_wp_done (set_send (Chan.with_buf rest (send cs)) cs)) as ->.
    { unfold writePump_iter, Chan.recv_nb. by rewrite Hwp, Hq. }
    by rewrite writePump_run_done.
  - rewrite writePump_run_cons.
    assert (writePump_iter (FromTicker true) cs = set_wp_done cs) as ->.
    { unfold writePump_iter. by rewrite Hwp. }
    by rewrite writePump_run_done.
Qed.

Lemma write_failure_ends_pump_witness :
  conn_out (writePump_run [FromQueue true; FromQueue false; FromTicker false]
              {| send := Chan.Make 4 [msg_a; msg_b] false; conn_out := [];
                 rp_done := false; wp_done := false |}) = [] ∧
  Chan.buf (send (writePump_run [FromQueue true; FromQueue false; FromTicker false]
              {| send := Chan.Make 4 [msg_a; msg_b] false; conn_out := [];
                 rp_done := false; wp_done := false |})) = [msg_b].
Proof.
  destruct (write_failure_ends_pump
              {| send := Chan.Make 4 [msg_a; msg_b] false; conn_out := [];
                 rp_done := false; wp_done := false |}
              [FromQueue false; FromTicker false] eq_refl) as [Hq _].
  destruct (Hq msg_a [msg_b] eq_refl) as (H1 & H2 & _).
  split; [exact H1|exact H2].
Defined.

(** ** Who is in [h.clients] *)

Lemma writePump_iter_rp k cs : rp_done (writePump_iter k cs) = rp_done cs.
Proof.
  unfold writePump_iter. destruct (wp_done cs); [done|].
  destruct k as [[]|[]]; simpl; try done;
    unfold Chan.recv_nb; destruct (Chan.buf (send cs)); simpl; try done;
    by destruct (Chan.closed (send cs)).
Qed.

Lemma writePump_run_rp ks cs : rp_done (writePump_run ks cs) = rp_done cs.
Proof.
  revert cs. induction ks as [|k ks IH]; intros cs; [done|].
  by rewrite writePump_run_cons, IH, writePump_iter_rp.
Qed.

Lemma take_oldest_rp c cs : rp_done (take_oldest c cs).1 = rp_done cs.
Proof. unfold take_oldest. by destruct (Chan.recv_nb (send cs)). Qed.

Lemma offer_rp c msg g cs cs' keep seen :
  offer c msg g cs = Ok (cs', keep, seen) → rp_done cs' = rp_done cs.
Proof.
  rewrite offer_unfold. destruct (Chan.send_nb msg (send cs)); [by intros [= <- _ _]| |done].
  simpl. destruct (Chan.send_nb msg _); [| |done].
  - intros [= <- _ _]. simpl. by rewrite writePump_run_rp, take_oldest_rp, writePump_run_rp.
  - destruct (Chan.close _); [|done]. intros [= <- _ _]. simpl.
    by rewrite writePump_run_rp, take_oldest_rp, writePump_run_rp.
Qed.

Lemma boot_tracked o : tracked (boot o).
Proof. split; intros c cs H; simpl in H; by rewrite lookup_empty in H. Qed.

Lemma step_tracked ev st st' :
  sound st → tracked st → step ev st = Ok st' → tracked st'.
Proof.
  intros S [Trp Tlive] Hstep. pose proof (snd_coherent _ S) as C.
  destruct ev as [|c0 r|c0 k|b|pref g]; simpl in Hstep.
  - destruct (ServeWs_sound st S) as (st1 & Hrun & _ & Hfresh & _ & Hcl & Hh & _).
    assert (st1 = st') as -> by congruence.
    split; intros c cs; rewrite Hh, lookup_insert_Some; intros [[<- <-]|[Hne Hcs]].
    + done.
    + by apply (Trp c).
    + rewrite live_lookup, Hcl, lookup_insert_eq. done.
    + rewrite live_lookup, Hcl, lookup_insert_ne by done.
      rewrite <- live_lookup. by apply Tlive.
  - unfold readPump_iter in Hstep.
    destruct (heap st !! c0) as [cs0|] eqn:Hcs0; [|by injection Hstep as <-].
    destruct (rp_done cs0) eqn:Hrp; [by injection Hstep as <-|].
    destruct r as [mt message|].
    + destruct (submit_sound message st S) as [[Hn _]|(st1 & Hs & _ & Hcl & Hh & _)];
        rewrite ?Hn, ?Hs in Hstep; injection Hstep as <-; [done|].
      split; intros c cs; rewrite Hh; [apply Trp|].
      rewrite live_lookup, Hcl, <- live_lookup. apply Tlive.
    + assert (live st c0) as Hl.
      { apply (Tlive c0 cs0 Hcs0). by rewrite <- (Trp c0 cs0 Hcs0). }
      destruct (Run_unregister_live c0 st C Hl) as (cs & st1 & Hcs & Hopen & Hrun & _ & Hh & Hp & _).
      rewrite Hrun in Hstep. simpl in Hstep. injection Hstep as <-.
      assert (cs = cs0) as -> by congruence.
      split; intros c cs'; simpl; rewrite lookup_alter, Hp;
        (destruct (decide (c0 = c)) as [<-|Hne];
         [rewrite lookup_insert_eq; simpl; intros [= <-]; simpl
         |rewrite lookup_insert_ne by done; intros Hcs']).
      * done.
      * by apply (Trp c).
      * rewrite live_lookup, Hh. simpl. rewrite lookup_delete_eq. done.
      * rewrite live_lookup, Hh. simpl. rewrite lookup_delete_ne by done.
        rewrite <- live_lookup. by apply Tlive.
  - injection Hstep as <-.
    split; intros c cs'; simpl; rewrite lookup_alter;
      (destruct (decide (c0 = c)) as [<-|Hne]; [|intros Hcs'; by (apply (Trp c) || apply Tlive)]);
      destruct (heap st !! c0) as [cs|] eqn:Hcs; simpl; try done; intros [= <-].
    + rewrite writePump_iter_rp, (drained_closed _ _ (writePump_iter_drained k cs)).
      by apply (Trp c0).
    + rewrite (drained_closed _ _ (writePump_iter_drained k cs)).
      change (live st c0 ↔ Chan.closed (send cs) = false). by apply Tlive.
  - unfold Broadcast in Hstep.
    destruct (submit_sound b st S) as [[Hn _]|(st1 & Hs & _ & Hcl & Hh & _)];
      rewrite ?Hn, ?Hs in Hstep; injection Hstep as <-; [done|].
    split; intros c cs; rewrite Hh; [apply Trp|].
    rewrite live_lookup, Hcl, <- live_lookup. apply Tlive.
  - unfold Chan.recv_nb in Hstep.
    destruct (Chan.buf (broadcast (hub st))) as [|msg rest] eqn:Hbuf.
    { rewrite (snd_open _ S) in Hstep. by injection Hstep as <-. }
    set (st0 := {| hub := set_broadcast (Chan.with_buf rest (broadcast (hub st))) (hub st);
                   heap := heap st; log := log st |}) in *.
    assert (coherent st0) as C0 by (by apply (coherent_ext st)).
    destruct (Run_broadcasted msg pref g st0 C0) as (st1 & Hrun & B).
    assert (Ok st1 = Ok st') as [= ->] by (rewrite <- Hrun; exact Hstep).
    assert (∀ c cs', heap st' !! c = Some cs' →
              ∃ cs, heap st !! c = Some cs ∧ rp_done cs' = rp_done cs ∧
                Chan.closed (send cs') = Chan.closed (send cs) ∧
                (live st' c ↔ live st c)) as Hback.
    { intros c cs' Hcs'. destruct (decide (live st c)) as [Hl|Hl].
      - destruct (bc_live _ _ _ _ B c Hl)
          as (cs & cs1 & keep & seen & Hcs & Hopen & Hoffer & Hoff & Hcs1 & Hk & _).
        simpl in Hcs. assert (cs1 = cs') as -> by congruence.
        assert (keep = true) as ->.
        { apply (off_keep _ _ _ _ _ _ Hoff).
          - by apply (coh_bound _ C c).
          - by apply (sound_cap_pos st c). }
        exists cs. split; [done|]. split; [by apply (offer_rp c msg (g c) cs cs' true seen)|].
        split; [by rewrite (off_closed _ _ _ _ _ _ Hoff), Hopen|].
        unfold live at 1. by rewrite Hk.
      - destruct (bc_idle _ _ _ _ B c Hl) as (Hcl & Hh & _).
        exists cs'. rewrite Hh in Hcs'. split; [exact Hcs'|]. split; [done|]. split; [done|].
        rewrite !live_lookup, Hcl. done. }
    split; intros c cs' Hcs'; destruct (Hback c cs' Hcs') as (cs & Hcs & Hr & Hc & Hlv).
    + rewrite Hr, Hc. by apply (Trp c).
    + rewrite Hlv, Hc. by apply Tlive.
Qed.

Lemma exec_tracked evs st st' :
  sound st → tracked st → exec evs st = Ok st' → tracked st'.
Proof.
  revert st. induction evs as [|ev evs IH]; intros st S T Hexec; simpl in Hexec.
  { by injection Hexec as <-. }
  destruct (step_sound ev st S) as (st1 & Hstep & S1).
  rewrite Hstep in Hexec. simpl in Hexec.
  apply (IH st1 S1); [|done]. by apply (step_tracked ev st).
Qed.

(** X8. In every state of the program a client is in [h.clients] exactly
    as long as its read pump has not returned, and its queue is closed
    exactly when it has, once: no fan-out, however slow the client, takes
    a client out or closes a queue. *)
Theorem registry_follows_read_pumps o evs :
  ∃ st, exec evs (boot o) = Ok st ∧
    ∀ c cs, heap st !! c = Some cs →
      (live st c ↔ rp_done cs = false) ∧
      Chan.closed (send cs) = rp_done cs ∧
      closes c (log st) = (if rp_done cs then 1%nat else 0%nat).
Proof.
  destruct (exec_sound evs (boot o) (boot_sound o)) as (st & Hexec & S).
  pose proof (exec_tracked evs (boot o) st (boot_sound o) (boot_tracked o) Hexec) as [Trp Tlive].
  exists st. split; [done|]. intros c cs Hcs.
  rewrite (Trp c cs Hcs). split; [by apply Tlive|]. split; [done|].
  rewrite (coh_closes _ (snd_coherent _ S)). unfold closed_count. by rewrite Hcs.
Qed.

(** ** Bounds *)






(** ** [Hub.Broadcast] *)

(** X10. In a state of the program [h.Broadcast(b)] never panics; it
    waits exactly when [h.broadcast] holds its 256 payloads, and otherwise
    puts [b] behind the payloads already there and touches neither
    [h.clients] nor any client. *)
Theorem Broadcast_waits_when_full b st :
  sound st →
  (Broadcast b st = None ↔ (256 ≤ length (Chan.buf (broadcast (hub st))))%nat) ∧
  ((length (Chan.buf (broadcast (hub st))) < 256)%nat →
     ∃ st', Broadcast b st = Some (Ok st') ∧
       Chan.buf (broadcast (hub st')) = Chan.buf (broadcast (hub st)) ++ [b] ∧
       clients (hub st') = clients (hub st) ∧ heap st' = heap st ∧ sound st') ∧
  (∀ p, Broadcast b st ≠ Some (Panic p)).
Proof.
  intros S. unfold Broadcast.
  destruct (submit_sound b st S) as [[Hn Hfull]|(st' & Hs & S' & Hcl & Hh & Hbuf & _)].
  - rewrite (snd_bcap _ S) in Hfull. rewrite Hn.
    split; [done|]. split; [intros; lia|done].
  - rewrite Hs. assert ((length (Chan.buf (broadcast (hub st))) < 256)%nat) as Hlt.
    { unfold submit in Hs.
      destruct (send_nb_open b _ (snd_open _ S)) as [[Hlt _]|[_ He]];
        [by rewrite <- (snd_bcap _ S)|by rewrite He in Hs]. }
    split; [split; [done|lia]|]. split; [|done]. intros _. by exists st'.
Qed.

Lemma Broadcast_waits_when_full_witness :
  sound one_client ∧
  ∃ st', Broadcast msg_a one_client = Some (Ok st') ∧
    Chan.buf (broadcast (hub st')) = Chan.buf (broadcast (hub one_client)) ++ [msg_a] ∧
    clients (hub st') = clients (hub one_client) ∧ heap st' = heap one_client ∧ sound st'.
Proof.
  split; [exact one_client_sound|].
  apply (proj1 (proj2 (Broadcast_waits_when_full msg_a one_client one_client_sound))).
  vm_compute. lia.
Defined.

(** ** The read pump and [ServeWs] *)

(** X11. When a read fails, the read pump hands its client to [Run] and
    returns: the client leaves [h.clients] and its queue is closed, once,
    with the payloads it held still in it; no other client, and nothing in
    [h.broadcast], is touched; and no later read of that client does
    anything. *)
Theorem read_error_unregisters c cs st :
  sound st → heap st !! c = Some cs → rp_done cs = false → live st c →
  ∃ st' cs',
    step (EvRead c ReadErr) st = Ok st' ∧
    ¬ live st' c ∧ heap st' !! c = Some cs' ∧
    Chan.closed (send cs') = true ∧ Chan.buf (send cs') = Chan.buf (send cs) ∧
    conn_out cs' = conn_out cs ∧ rp_done cs' = true ∧
    closes c (log st') = 1%nat ∧
    (∀ c', c' ≠ c → heap st' !! c' = heap st !! c' ∧ (live st' c' ↔ live st c')) ∧
    broadcast (hub st') = broadcast (hub st) ∧
    (∀ r, step (EvRead c r) st' = Ok st').
Proof.
  intros S Hcs Hrp Hl. pose proof (snd_coherent _ S) as C.
  destruct (Run_unregister_live c st C Hl) as (cs0 & st1 & Hcs0 & Hopen & Hrun & _ & Hh & Hp & Hlog).
  assert (cs0 = cs) as -> by congruence.
  eexists _, _. split.
  { simpl. unfold readPump_iter. rewrite Hcs, Hrp, Hrun. reflexivity. }
  simpl. split; [|split; [|split; [|split; [|split; [|split; [|split; [|split; [|split]]]]]]]].
  - rewrite live_lookup, Hh. simpl. by rewrite lookup_delete_eq.
  - rewrite lookup_alter_eq, Hp, lookup_insert_eq. reflexivity.
  - done.
  - done.
  - done.
  - done.
  - rewrite Hlog, closes_app, closes_one, bool_decide_eq_true_2 by done.
    by rewrite (coherent_open_closes st c cs C Hcs Hopen).
  - intros c' Hne. rewrite lookup_alter_ne, Hp, lookup_insert_ne by done.
    split; [done|]. rewrite !live_lookup, Hh. simpl. by rewrite lookup_delete_ne.
  - by rewrite Hh.
  - intros r. unfold readPump_iter. simpl.
    rewrite lookup_alter_eq, Hp, lookup_insert_eq. reflexivity.
Qed.

Lemma read_error_unregisters_witness :
  sound one_client_full ∧ live one_client_full 0%nat ∧
  ∃ st' cs',
    step (EvRead 0%nat ReadErr) one_client_full = Ok st' ∧
    ¬ live st' 0%nat ∧ heap st' !! 0%nat = Some cs' ∧
    Chan.closed (send cs') = true ∧ Chan.buf (send cs') = [msg_a] ∧
    conn_out cs' = [] ∧ rp_done cs' = true ∧
    closes 0%nat (log st') = 1%nat ∧
    (∀ c', c' ≠ 0%nat →
       heap st' !! c' = heap one_client_full !! c' ∧ (live st' c' ↔ live one_client_full c')) ∧
    broadcast (hub st') = broadcast (hub one_client_full) ∧
    (∀ r, step (EvRead 0%nat r) st' = Ok st').
Proof.
  assert (live one_client_full 0%nat) as L by (vm_compute; reflexivity).
  split; [exact one_client_full_sound|]. split; [exact L|].
  apply (read_error_unregisters 0%nat
           {| send := Chan.Make 1 [msg_a] false; conn_out := []; rp_done := false;
              wp_done := false |} one_client_full one_client_full_sound).
  - vm_compute; reflexivity.
  - reflexivity.
  - exact L.
Defined.



(** ** The fan-out *)

Lemma lookup_is_client st c :
  coherent st →
  clients (hub st) !! c = if is_client (hub st) c then Some true else None.
Proof.
  intros C. unfold is_client.
  destruct (clients (hub st) !! c) as [b|] eqn:Hb; [|done].
  by rewrite (coh_true _ C _ _ Hb).
Qed.

(** X13. The order in which [range] visits [h.clients] does not matter:
    whatever the two orders, the fan-out of a payload ends with the same
    hub and the same clients, and for every client the same payloads
    enqueued and the same closings. *)
Theorem range_order_immaterial msg pref1 pref2 g st :
  coherent st →
  ∃ st1 st2,
    Run_step (OnBroadcast msg pref1 g) st = Ok st1 ∧
    Run_step (OnBroadcast msg pref2 g) st = Ok st2 ∧
    hub st1 = hub st2 ∧ heap st1 = heap st2 ∧
    dispatched (log st1) = dispatched (log st2) ∧
    ∀ c, enqueued c (log st1) = enqueued c (log st2) ∧
         closes c (log st1) = closes c (log st2).
Proof.
  intros C.
  destruct (Run_broadcasted msg pref1 g st C) as (st1 & Hrun1 & B1).
  destruct (Run_broadcasted msg pref2 g st C) as (st2 & Hrun2 & B2).
  exists st1, st2. split; [done|]. split; [done|].
  assert (∀ c, clients (hub st1) !! c = clients (hub st2) !! c ∧
               heap st1 !! c = heap st2 !! c ∧
               enqueued c (log st1) = enqueued c (log st2) ∧
               closes c (log st1) = closes c (log st2)) as Hsame.
  { intros c. destruct (decide (live st c)) as [Hl|Hl].
    - destruct (bc_live _ _ _ _ B1 c Hl) as (cs & cs1 & k1 & s1 & Hcs & _ & Ho1 & _ & Hh1 & Hk1 & He1 & Hc1).
      destruct (bc_live _ _ _ _ B2 c Hl) as (cs' & cs2 & k2 & s2 & Hcs' & _ & Ho2 & _ & Hh2 & Hk2 & He2 & Hc2).
      assert (cs' = cs) as -> by congruence.
      rewrite Ho1 in Ho2. injection Ho2 as <- <- <-.
      rewrite (lookup_is_client st1 c (bc_coherent _ _ _ _ B1)),
        (lookup_is_client st2 c (bc_coherent _ _ _ _ B2)), Hk1, Hk2.
      by rewrite Hh1, Hh2, He1, He2, Hc1, Hc2.
    - destruct (bc_idle _ _ _ _ B1 c Hl) as (-> & -> & -> & ->).
      by destruct (bc_idle _ _ _ _ B2 c Hl) as (-> & -> & -> & ->). }
  split; [|split; [|split]].
  - pose proof (bc_broadcast _ _ _ _ B1) as Hb1. pose proof (bc_broadcast _ _ _ _ B2) as Hb2.
    pose proof (bc_opts _ _ _ _ B1) as Hop1. pose proof (bc_opts _ _ _ _ B2) as Hop2.
    assert (clients (hub st1) = clients (hub st2)) as Hcl.
    { apply map_eq. intros c. apply Hsame. }
    destruct (hub st1), (hub st2). simpl in *. congruence.
  - apply map_eq. intros c. apply Hsame.
  - by rewrite (bc_disp _ _ _ _ B1), (bc_disp _ _ _ _ B2).
  - intros c. split; apply Hsame.
Qed.

Lemma range_order_immaterial_witness :
  coherent two_clients ∧
  ∃ st1 st2,
    Run_step (OnBroadcast msg_a [0%nat; 1%nat] still) two_clients = Ok st1 ∧
    Run_step (OnBroadcast msg_a [1%nat; 0%nat] still) two_clients = Ok st2 ∧
    hub st1 = hub st2 ∧ heap st1 = heap st2 ∧
    dispatched (log st1) = dispatched (log st2) ∧
    ∀ c, enqueued c (log st1) = enqueued c (log st2) ∧
         closes c (log st1) = closes c (log st2).
Proof.
  assert (coherent two_clients) as C by apply (snd_coherent _ two_clients_sound).
  split; [exact C|].
  exact (range_order_immaterial msg_a [0%nat; 1%nat] [1%nat; 0%nat] still two_clients C).
Defined.

(** ** Clients that have left *)

Lemma left_alone_same c cs st st' :
  heap st !! c = Some cs → ¬ live st c →
  (∀ c', live st' c' ↔ live st c') → heap st' = heap st →
  enqueued c (log st') = enqueued c (log st) →
  closes c (log st') = closes c (log st) →
  left_alone c st st'.
Proof.
  intros Hcs Hl Hlive Hh He Hc. split; [by rewrite Hlive| |done|done].
  exists cs, cs. rewrite Hh. split; [done|]. split; [done|]. apply drained_refl.
Qed.

Lemma left_alone_trans c st1 st2 st3 :
  left_alone c st1 st2 → left_alone c st2 st3 → left_alone c st1 st3.
Proof.
  intros [_ (cs1 & cs2 & H1 & H2 & D12) E12 C12] [L3 (cs2' & cs3 & H2' & H3 & D23) E23 C23].
  assert (cs2' = cs2) as -> by congruence.
  split; [done| |congruence|congruence].
  exists cs1, cs3. split; [done|]. split; [done|]. by apply (drained_trans cs1 cs2 cs3).
Qed.

Lemma submit_left_alone b c cs st st' :
  sound st → heap st !! c = Some cs → ¬ live st c →
  submit b st = Some (Ok st') → left_alone c st st'.
Proof.
  intros S Hcs Hl Hsub.
  destruct (submit_sound b st S) as [[Hnone _]|(st1 & Hsome & _ & Hcl & Hh & _ & Hlog)];
    [congruence|].
  assert (st1 = st') as -> by congruence.
  apply (left_alone_same c cs); try done.
  - intros c'. by rewrite !live_lookup, Hcl.
  - rewrite Hlog. by apply enqueued_snoc_other.
  - rewrite Hlog. by apply closes_snoc_other.
Qed.

Lemma step_left_alone ev c cs st st' :
  sound st → heap st !! c = Some cs → ¬ live st c →
  step ev st = Ok st' → left_alone c st st'.
Proof.
  intros S Hcs Hl Hstep. pose proof (snd_coherent _ S) as C.
  destruct ev as [|c0 r|c0 k|b|pref g]; simpl in Hstep.
  - destruct (ServeWs_sound st S) as (st1 & Hrun & _ & Hfresh & _ & Hcl & Hh & Hlog).
    assert (st1 = st') as -> by congruence.
    assert (fresh (dom (heap st)) ≠ c) as Hne by (intros <-; congruence).
    split.
    + by rewrite live_lookup, Hcl, lookup_insert_ne, <- live_lookup.
    + exists cs, cs. rewrite Hh, lookup_insert_ne by done.
      split; [done|]. split; [done|]. apply drained_refl.
    + by rewrite Hlog.
    + by rewrite Hlog.
  - unfold readPump_iter in Hstep.
    destruct (heap st !! c0) as [cs0|] eqn:Hcs0;
      [|injection Hstep as <-; by apply (left_alone_same c cs)].
    destruct (rp_done cs0); [injection Hstep as <-; by apply (left_alone_same c cs)|].
    destruct r as [mt message|].
    + destruct (submit message st) as [r|] eqn:Hsub;
        [|injection Hstep as <-; by apply (left_alone_same c cs)].
      subst r. by apply (submit_left_alone message c cs).
    + destruct (decide (live st c0)) as [Hl0|Hl0].
      * destruct (Run_unregister_live c0 st C Hl0)
          as (cs1 & st1 & _ & _ & Hrun & _ & Hh & Hp & Hlog).
        rewrite Hrun in Hstep. simpl in Hstep. injection Hstep as <-.
        assert (c0 ≠ c) as Hne by (by intros ->).
        split; simpl.
        -- rewrite live_lookup, Hh. simpl. by rewrite lookup_delete_ne, <- live_lookup.
        -- exists cs, cs. rewrite lookup_alter_ne, Hp, lookup_insert_ne by done.
           split; [done|]. split; [done|]. apply drained_refl.
        -- rewrite Hlog. by apply enqueued_snoc_other.
        -- rewrite Hlog, closes_app, closes_one, bool_decide_eq_false_2 by done. lia.
      * rewrite (Run_unregister_absent c0 st Hl0) in Hstep. simpl in Hstep.
        injection Hstep as <-. split; simpl; try done.
        destruct (decide (c0 = c)) as [->|Hne].
        -- exists cs, (set_rp_done cs). rewrite lookup_alter_eq, Hcs.
           split; [done|]. split; [done|]. apply set_rp_done_drained.
        -- exists cs, cs. rewrite lookup_alter_ne by done.
           split; [done|]. split; [done|]. apply drained_refl.
  - injection Hstep as <-. split; simpl; try done.
    destruct (decide (c0 = c)) as [->|Hne].
    + exists cs, (writePump_iter k cs). rewrite lookup_alter_eq, Hcs.
      split; [done|]. split; [done|]. apply writePump_iter_drained.
    + exists cs, cs. rewrite lookup_alter_ne by done.
      split; [done|]. split; [done|]. apply drained_refl.
  - unfold Broadcast in Hstep. destruct (submit b st) as [r|] eqn:Hsub;
      [|injection Hstep as <-; by apply (left_alone_same c cs)].
    subst r. by apply (submit_left_alone b c cs).
  - unfold Chan.recv_nb in Hstep.
    destruct (Chan.buf (broadcast (hub st))) as [|msg rest] eqn:Hbuf.
    { rewrite (snd_open _ S) in Hstep. injection Hstep as <-.
      by apply (left_alone_same c cs). }
    set (st0 := {| hub := set_broadcast (Chan.with_buf rest (broadcast (hub st))) (hub st);
                   heap := heap st; log := log st |}) in *.
    assert (coherent st0) as C0 by (by apply (coherent_ext st)).
    destruct (Run_broadcasted msg pref g st0 C0) as (st1 & Hrun & B).
    assert (Ok st1 = Ok st') as [= ->] by (rewrite <- Hrun; exact Hstep).
    destruct (bc_idle _ _ _ _ B c Hl) as (Hcl & Hh & He & Hc).
    split; [|exists cs, cs|exact He|exact Hc].
    + intros Hl'. apply Hl. apply live_lookup in Hl'. rewrite Hcl in Hl'.
      by apply live_lookup in Hl'.
    + split; [done|]. split; [by rewrite Hh|]. apply drained_refl.
Qed.

(** X14. A client that is out of [h.clients] stays out, and [Run] is done
    with its queue: whatever the program does afterwards, nothing more is
    enqueued on that client and its queue is not closed again; only its
    own write pump touches it, taking payloads from the front of the
    queue and writing frames to the peer. *)
Theorem departed_client_left_alone c cs evs st :
  sound st → heap st !! c = Some cs → ¬ live st c →
  ∃ st' cs',
    exec evs st = Ok st' ∧ ¬ live st' c ∧ heap st' !! c = Some cs' ∧
    enqueued c (log st') = enqueued c (log st) ∧
    closes c (log st') = closes c (log st) ∧
    Chan.closed (send cs') = Chan.closed (send cs) ∧
    Chan.buf (send cs') `suffix_of` Chan.buf (send cs) ∧
    conn_out cs `prefix_of` conn_out cs'.
Proof.
  intros S Hcs Hl.
  assert (∃ st', exec evs st = Ok st' ∧ left_alone c st st') as (st' & Hexec & L).
  { revert st cs S Hcs Hl. induction evs as [|ev evs IH]; intros st cs S Hcs Hl.
    { exists st. split; [done|]. by apply (left_alone_same c cs). }
    destruct (step_sound ev st S) as (st1 & Hstep & S1).
    pose proof (step_left_alone ev c cs st st1 S Hcs Hl Hstep) as L1.
    destruct (la_drained _ _ _ L1) as (cs0 & cs1 & _ & Hcs1 & _).
    destruct (IH st1 cs1 S1 Hcs1 (la_out _ _ _ L1)) as (st' & Hexec & L2).
    exists st'. rewrite (exec_step _ _ _ _ Hstep). split; [done|].
    by apply (left_alone_trans c st st1 st'). }
  destruct L as [Hout (cs0 & cs' & Hcs0 & Hcs' & D) He Hc].
  assert (cs0 = cs) as -> by congruence.
  exists st', cs'. split; [done|]. split; [done|]. split; [done|]. split; [done|].
  split; [done|]. split; [apply (drained_closed _ _ D)|].
  split; [apply (drained_buf _ _ D)|apply (drained_out _ _ D)].
Qed.

Lemma departed_client_left_alone_witness :
  sound gone ∧ ¬ live gone 0%nat ∧
  ∃ st' cs',
    exec [EvBroadcast msg_b; EvDispatch [] still; EvPump 0%nat (FromQueue false)] gone
    = Ok st' ∧
    ¬ live st' 0%nat ∧ heap st' !! 0%nat = Some cs' ∧
    enqueued 0%nat (log st') = enqueued 0%nat (log gone) ∧
    closes 0%nat (log st') = closes 0%nat (log gone) ∧
    Chan.closed (send cs') = true ∧
    Chan.buf (send cs') `suffix_of` [msg_a] ∧
    [] `prefix_of` conn_out cs'.
Proof.
  assert (sound gone) as S by apply run_from_sound, one_client_full_sound.
  assert (¬ live gone 0%nat) as L by (intros H; vm_compute in H; discriminate).
  split; [exact S|]. split; [exact L|].
  apply (departed_client_left_alone 0%nat
           {| send := Chan.Make 1 [msg_a] true; conn_out := []; rp_done := true;
              wp_done := false |}
           [EvBroadcast msg_b; EvDispatch [] still; EvPump 0%nat (FromQueue false)]
           gone S).
  - vm_compute; reflexivity.
  - exact L.
Defined.

(** ** Clients that connect late *)

Lemma grown_same c st st' :
  dispatched (log st') = dispatched (log st) →
  enqueued c (log st') = enqueued c (log st) →
  grown c st st' [] [].
Proof. intros H1 H2. split; rewrite ?app_nil_r; done. Qed.

Lemma grown_trans c st1 st2 st3 D1 E1 D2 E2 :
  grown c st1 st2 D1 E1 → grown c st2 st3 D2 E2 → grown c st1 st3 (D1 ++ D2) (E1 ++ E2).
Proof.
  intros [H1 H2 H3] [K1 K2 K3]. split.
  - by rewrite K1, H1, app_assoc.
  - by rewrite K2, H2, app_assoc.
  - by apply sublist_app.
Qed.

Lemma submit_grown b c st st' :
  sound st → submit b st = Some (Ok st') → grown c st st' [] [].
Proof.
  intros S Hsub.
  destruct (submit_sound b st S) as [[Hnone _]|(st1 & Hsome & _ & _ & _ & _ & Hlog)];
    [congruence|].
  assert (st1 = st') as -> by congruence.
  apply grown_same; rewrite Hlog.
  - by apply dispatched_snoc_other.
  - by apply enqueued_snoc_other.
Qed.

Lemma unregister_grown c0 c st st' :
  sound st → Run_step (OnUnregister c0) st = Ok st' → grown c st st' [] [].
Proof.
  intros S Hrun. destruct (decide (live st c0)) as [Hl|Hl].
  - destruct (Run_unregister_live c0 st (snd_coherent _ S) Hl)
      as (cs & st1 & _ & _ & Hrun1 & _ & _ & _ & Hlog).
    assert (st1 = st') as -> by congruence.
    apply grown_same; rewrite Hlog.
    + by apply dispatched_snoc_other.
    + by apply enqueued_snoc_other.
  - rewrite (Run_unregister_absent c0 st Hl) in Hrun. injection Hrun as <-.
    by apply grown_same.
Qed.

Lemma step_grown ev c st st' :
  sound st → step ev st = Ok st' → ∃ D E, grown c st st' D E.
Proof.
  intros S Hstep. pose proof (snd_coherent _ S) as C.
  destruct ev as [|c0 r|c0 k|b|pref g]; simpl in Hstep.
  - destruct (ServeWs_sound st S) as (st1 & Hrun & _ & _ & _ & _ & _ & Hlog).
    assert (st1 = st') as -> by congruence.
    exists [], []. apply grown_same; by rewrite Hlog.
  - exists [], []. unfold readPump_iter in Hstep.
    destruct (heap st !! c0) as [cs0|]; [|injection Hstep as <-; by apply grown_same].
    destruct (rp_done cs0); [injection Hstep as <-; by apply grown_same|].
    destruct r as [mt message|].
    + destruct (submit message st) as [r|] eqn:Hsub;
        [|injection Hstep as <-; by apply grown_same].
      subst r. by apply (submit_grown message).
    + destruct (Run_step (OnUnregister c0) st) as [st1|] eqn:Hrun; [|done].
      simpl in Hstep. injection Hstep as <-.
      destruct (unregister_grown c0 c st st1 S Hrun) as [H1 H2 H3].
      split; simpl; done.
  - exists [], []. injection Hstep as <-. by apply grown_same.
  - exists [], []. unfold Broadcast in Hstep. destruct (submit b st) as [r|] eqn:Hsub;
      [|injection Hstep as <-; by apply grown_same].
    subst r. by apply (submit_grown b).
  - unfold Chan.recv_nb in Hstep.
    destruct (Chan.buf (broadcast (hub st))) as [|msg rest] eqn:Hbuf.
    { exists [], []. rewrite (snd_open _ S) in Hstep. injection Hstep as <-.
      by apply grown_same. }
    set (st0 := {| hub := set_broadcast (Chan.with_buf rest (broadcast (hub st))) (hub st);
                   heap := heap st; log := log st |}) in *.
    assert (coherent st0) as C0 by (by apply (coherent_ext st)).
    destruct (Run_broadcasted msg pref g st0 C0) as (st1 & Hrun & B).
    assert (Ok st1 = Ok st') as [= ->] by (rewrite <- Hrun; exact Hstep).
    exists [msg]. destruct (decide (live st c)) as [Hl|Hl].
    + destruct (bc_live _ _ _ _ B c Hl) as (cs & cs1 & keep & seen & _ & _ & _ & _ & _ & _ & He & _).
      exists (if keep then [msg] else []). split.
      * apply (bc_disp _ _ _ _ B).
      * exact He.
      * destruct keep; [done|apply sublist_nil_l].
    + destruct (bc_idle _ _ _ _ B c Hl) as (_ & _ & He & _).
      exists []. split.
      * apply (bc_disp _ _ _ _ B).
      * rewrite app_nil_r. exact He.
      * apply sublist_nil_l.
Qed.

Lemma exec_grown evs c st st' :
  sound st → exec evs st = Ok st' → ∃ D E, grown c st st' D E.
Proof.
  revert st. induction evs as [|ev evs IH]; intros st S Hexec.
  { simpl in Hexec. injection Hexec as <-. exists [], []. by apply grown_same. }
  destruct (step_sound ev st S) as (st1 & Hstep & S1).
  rewrite (exec_step _ _ _ _ Hstep) in Hexec.
  destruct (step_grown ev c st st1 S Hstep) as (D1 & E1 & G1).
  destruct (IH st1 S1 Hexec) as (D2 & E2 & G2).
  exists (D1 ++ D2), (E1 ++ E2). by apply (grown_trans c st st1 st').
Qed.

(** X15. Nothing is replayed to a client that connects late: whatever the
    program does after a state in which a client does not exist yet, the
    payloads enqueued on that client, and so those in its queue and those
    written to its peer, are among the payloads dispatched after that
    state, in the order of their dispatch. *)
Theorem late_client_gets_no_replay c evs st :
  sound st → heap st !! c = None →
  ∃ st',
    exec evs st = Ok st' ∧
    enqueued c (log st')
      `sublist_of` drop (length (dispatched (log st))) (dispatched (log st')) ∧
    ∀ cs, heap st' !! c = Some cs →
      texts (conn_out cs) ++ Chan.buf (send cs)
        `sublist_of` drop (length (dispatched (log st))) (dispatched (log st')).
Proof.
  intros S Hnone. destruct (exec_sound evs st S) as (st' & Hexec & S').
  exists st'. split; [done|].
  destruct (exec_grown evs c st st' S Hexec) as (D & E & [HD HE Hsub]).
  assert (enqueued c (log st')
            `sublist_of` drop (length (dispatched (log st))) (dispatched (log st'))) as H.
  { rewrite HD, drop_app_length, HE, (snd_fresh _ S c Hnone). exact Hsub. }
  split; [exact H|]. intros cs Hcs.
  etrans; [|exact H]. apply (snd_pending _ S' c cs Hcs).
Qed.

Lemma late_client_gets_no_replay_witness :
  sound one_client_full ∧ heap one_client_full !! 1%nat = None ∧
  ∃ st',
    exec [EvServeWs; EvBroadcast msg_b; EvDispatch [] still] one_client_full = Ok st' ∧
    enqueued 1%nat (log st')
      `sublist_of` drop (length (dispatched (log one_client_full))) (dispatched (log st')) ∧
    ∀ cs, heap st' !! 1%nat = Some cs →
      texts (conn_out cs) ++ Chan.buf (send cs)
        `sublist_of` drop (length (dispatched (log one_client_full))) (dispatched (log st')).
Proof.
  split; [exact one_client_full_sound|]. split; [vm_compute; reflexivity|].
  apply (late_client_gets_no_replay 1%nat
           [EvServeWs; EvBroadcast msg_b; EvDispatch [] still] one_client_full
           one_client_full_sound).
  vm_compute; reflexivity.
Defined.

(** ** The endpoint against the hub *)

Lemma dispatch_one pref g msg rest st :
  sound st → Chan.buf (broadcast (hub st)) = msg :: rest →
  ∃ st',
    step (EvDispatch pref g) st = Ok st' ∧ sound st' ∧
    Chan.buf (broadcast (hub st')) = rest ∧
    ∀ c, live st c →
      live st' c ∧
      ∃ cs', heap st' !! c = Some cs' ∧ last (Chan.buf (send cs')) = Some msg.
Proof.
  intros S Hbuf. destruct (dispatch_sound pref g st S) as (st' & Hdisp & S').
  exists st'. split; [done|]. split; [done|].
  simpl in Hdisp. unfold Chan.recv_nb in Hdisp. rewrite Hbuf in Hdisp.
  set (st0 := {| hub := set_broadcast (Chan.with_buf rest (broadcast (hub st))) (hub st);
                 heap := heap st; log := log st |}) in *.
  assert (coherent st0) as C0 by (by apply (coherent_ext st); [| |done|apply (snd_coherent _ S)]).
  destruct (Run_broadcasted msg pref g st0 C0) as (st1 & Hrun & B).
  assert (Ok st1 = Ok st') as [= ->] by (rewrite <- Hrun; exact Hdisp).
  split; [by rewrite (bc_broadcast _ _ _ _ B)|].
  intros c Hl.
  destruct (bc_live _ _ _ _ B c Hl) as (cs & cs' & keep & seen & Hcs & _ & _ & Hoff & Hcs' & Hk & _).
  simpl in Hcs.
  assert (keep = true) as ->.
  { apply (off_keep _ _ _ _ _ _ Hoff).
    - by apply (coh_bound _ (snd_coherent _ S) c).
    - by apply (sound_cap_pos st c). }
  split; [exact Hk|]. exists cs'. split; [done|]. by apply (off_last _ _ _ _ _ _ Hoff).
Qed.

Lemma dispatches_drain pgs q b st :
  sound st → Chan.buf (broadcast (hub st)) = q ++ [b] →
  length pgs = S (length q) →
  ∃ st',
    exec (dispatches pgs) st = Ok st' ∧ sound st' ∧
    Chan.buf (broadcast (hub st')) = [] ∧
    ∀ c, live st c →
      live st' c ∧
      ∃ cs', heap st' !! c = Some cs' ∧ last (Chan.buf (send cs')) = Some b.
Proof.
  revert q st. induction pgs as [|[pref g] pgs IH]; intros q st S Hbuf Hlen; [done|].
  simpl in Hlen. unfold dispatches. rewrite fmap_cons. fold (dispatches pgs).
  destruct q as [|msg q]; simpl in Hbuf.
  - destruct (dispatch_one pref g b [] st S Hbuf) as (st1 & Hstep & S1 & Hb1 & Hall).
    destruct pgs; [|done].
    exists st1. rewrite (exec_step _ _ _ _ Hstep). done.
  - destruct (dispatch_one pref g msg (q ++ [b]) st S Hbuf) as (st1 & Hstep & S1 & Hb1 & Hall).
    destruct (IH q st1 S1 Hb1) as (st' & Hexec & S' & Hb' & Hall'); [simpl in Hlen; lia|].
    exists st'. rewrite (exec_step _ _ _ _ Hstep). split; [done|]. split; [done|].
    split; [done|]. intros c Hl. apply Hall'. by apply Hall.
Qed.

(** X16. The endpoint reaches every connected client.  For a body that
    binds, the handler answers 200 once [h.broadcast] has room for its
    payload, and when [Run] has then taken from [h.broadcast] what was
    there and that payload, every client that was in [h.clients] at the
    call is still there and has the serialization of the envelope at the
    back of its queue, whatever the write pumps did meanwhile.  For a body that
    does not bind the handler answers 400 and the hub is as it was. *)
Theorem broadcastAPI_reaches_clients
    (Marshal : gmap string json → payload) (FormatRFC3339 : Z → string) (now : Z)
    (b : body) (st : state) :
  sound st →
  match ShouldBindJSON b with
  | Some req =>
      (length (Chan.buf (broadcast (hub st))) < 256)%nat →
      ∀ pgs, length pgs = S (length (Chan.buf (broadcast (hub st)))) →
      ∃ st0 st',
        broadcastAPI_call Marshal FormatRFC3339 now b st
        = Some ({| status := StatusOK; answer := <["ok" := JBool true]> ∅ |}, Ok st0) ∧
        exec (dispatches pgs) st0 = Ok st' ∧
        ∀ c, live st c →
          live st' c ∧
          ∃ cs', heap st' !! c = Some cs' ∧
            last (Chan.buf (send cs'))
            = Some (Marshal (envelope (Message req) (FormatRFC3339 now)))
  | None =>
      broadcastAPI_call Marshal FormatRFC3339 now b st
      = Some ({| status := StatusBadRequest;
                 answer := <["error" := JString "message is required"]> ∅ |}, Ok st)
  end.
Proof.
  intros S. unfold broadcastAPI_call, broadcastAPI.
  destruct (ShouldBindJSON b) as [req|]; [|done].
  intros Hroom pgs Hlen. unfold Broadcast.
  destruct (submit_sound (Marshal (envelope (Message req) (FormatRFC3339 now))) st S)
    as [[_ Hfull]|(st0 & Hsub & S0 & Hcl & Hh & Hbuf & Hlog)].
  { rewrite (snd_bcap _ S) in Hfull. lia. }
  rewrite Hsub.
  destruct (dispatches_drain pgs _ _ st0 S0 Hbuf Hlen) as (st' & Hexec & _ & _ & Hall).
  exists st0, st'. split; [done|]. split; [done|].
  intros c Hl. apply Hall. by rewrite live_lookup, Hcl, <- live_lookup.
Qed.

Lemma broadcastAPI_reaches_clients_witness :
  sound one_client_full ∧
  ∃ st0 st',
    broadcastAPI_call (fun _ => msg_b) (fun _ => "t") 0
      (Body (JObject [("message", JString "hi")])) one_client_full
    = Some ({| status := StatusOK; answer := <["ok" := JBool true]> ∅ |}, Ok st0) ∧
    exec (dispatches [([], still)]) st0 = Ok st' ∧
    ∀ c, live one_client_full c →
      live st' c ∧
      ∃ cs', heap st' !! c = Some cs' ∧ last (Chan.buf (send cs')) = Some msg_b.
Proof.
  split; [exact one_client_full_sound|].
  apply (broadcastAPI_reaches_clients (fun _ => msg_b) (fun _ => "t") 0
           (Body (JObject [("message", JString "hi")])) one_client_full
           one_client_full_sound).
  - vm_compute; lia.
  - vm_compute; reflexivity.
Defined.

(** ** Which bodies bind *)





